(** * pytfa.optim.constraints: the constraint adapters and their registration

    A shallow embedding of [pytfa/optim/constraints.py].  The Python objects
    live in typed stores (one per kind of object) and are addressed by
    references; a method is a computation in a small state-and-exception
    monad over those stores. *)

From stdpp Require Import base option list strings gmap.

(** ** References, exceptions and results *)

(** A reference is an index into the store of its kind of object. *)
Abbreviation ref := nat (only parsing).

Inductive Exn :=
  | KeyError (key : string)   (* [mapping[key]] on a key the mapping lacks *)
  | AttributeError            (* an attribute read on [None] *)
  | TypeError                 (* unfit arguments, or a keyword given twice *)
  | BackendError              (* the solver interface rejects the row *)
  | InvalidReference.         (* a reference that denotes no object *)

Inductive Res (A : Type) :=
  | Ok (a : A)
  | Raise (e : Exn).
Arguments Ok {A} a.
Arguments Raise {A} e.

(** ** The classes of the module *)

Inductive Class :=
  | GenericConstraint
  | ReactionConstraint
  | MetaboliteConstraint
  | NegativeDeltaG
  | ForwardDeltaGCoupling
  | BackwardDeltaGCoupling
  | ForwardDirectionCoupling
  | BackwardDirectionCoupling
  | SimultaneousUse
  | DisplacementCoupling
  | ForbiddenProfile.

(** The class that provides [__init__], [id] and [model] to a class:
    [ReactionConstraint] for itself and its seven subclasses,
    [MetaboliteConstraint] for itself, and the base class for
    [GenericConstraint] and [ForbiddenProfile]. *)
Inductive Binding := ByReaction | ByMetabolite | Unbound.

Definition binding (c : Class) : Binding :=
  match c with
  | GenericConstraint | ForbiddenProfile => Unbound
  | MetaboliteConstraint => ByMetabolite
  | ReactionConstraint | NegativeDeltaG | ForwardDeltaGCoupling
  | BackwardDeltaGCoupling | ForwardDirectionCoupling
  | BackwardDirectionCoupling | SimultaneousUse | DisplacementCoupling =>
      ByReaction
  end.

(** The classes that override [make_name] with a prefix. *)
Definition concrete (c : Class) : bool :=
  match c with
  | GenericConstraint | ReactionConstraint | MetaboliteConstraint => false
  | _ => true
  end.

(** The prefix column of the specification's table of constraint kinds;
    the code's naming rule is [make_name] below. *)
Definition spec_prefix (c : Class) : string :=
  match c with
  | NegativeDeltaG => "G_"
  | ForwardDeltaGCoupling => "FU_"
  | BackwardDeltaGCoupling => "BU_"
  | ForwardDirectionCoupling => "UF_"
  | BackwardDirectionCoupling => "UR_"
  | SimultaneousUse => "SU_"
  | DisplacementCoupling => "DC_"
  | ForbiddenProfile => "FP_"
  | GenericConstraint | ReactionConstraint | MetaboliteConstraint => ""
  end.

(** [c.__name__] *)
Definition Class_name (c : Class) : string :=
  match c with
  | GenericConstraint => "GenericConstraint"
  | ReactionConstraint => "ReactionConstraint"
  | MetaboliteConstraint => "MetaboliteConstraint"
  | NegativeDeltaG => "NegativeDeltaG"
  | ForwardDeltaGCoupling => "ForwardDeltaGCoupling"
  | BackwardDeltaGCoupling => "BackwardDeltaGCoupling"
  | ForwardDirectionCoupling => "ForwardDirectionCoupling"
  | BackwardDirectionCoupling => "BackwardDirectionCoupling"
  | SimultaneousUse => "SimultaneousUse"
  | DisplacementCoupling => "DisplacementCoupling"
  | ForbiddenProfile => "ForbiddenProfile"
  end.

(** The positional arguments of a constructor call, next to [expr] and the
    keyword options: an owner for the reaction- and metabolite-bound classes
    ([C(reaction, expr, **kwargs)]), a model and an identifier for
    [GenericConstraint(id, expr, model, **kwargs)] and
    [ForbiddenProfile(model, expr, id, **kwargs)]. *)
Inductive Args :=
  | OfOwner (owner : ref)
  | OfModel (model : option ref) (id : string).

(** ** Objects *)

(** A reaction or a metabolite of cobra, as far as the module uses it:
    its [id] and its [model] ([None] while it belongs to no model). *)
Record Entity := {
  ent_id : string;
  ent_model : option ref;
}.

(** A constraint of the solver interface: a row of the problem. *)
Record Row (Expr Kwargs : Type) := {
  row_name : string;
  row_expression : Expr;
  row_options : Kwargs;
}.

(** An instance of one of the classes.  [owner] is the attribute
    [self.reaction] or [self.metabolite] that the initialiser of a bound
    class sets; the others are the attributes [GenericConstraint.__init__]
    sets. *)
Record Adapter (Kwargs : Type) := {
  cls : Class;
  owner : option ref;
  _id : string;
  _model : option ref;
  kwargs : Kwargs;
  _name : string;
}.

Arguments row_name {Expr Kwargs} r.
Arguments row_expression {Expr Kwargs} r.
Arguments row_options {Expr Kwargs} r.
Arguments cls {Kwargs} a.
Arguments owner {Kwargs} a.
Arguments _id {Kwargs} a.
Arguments _model {Kwargs} a.
Arguments kwargs {Kwargs} a.
Arguments _name {Kwargs} a.

(** The stores.  [models] holds, for every model, its [constraints] mapping
    from names to rows. *)
Record World (Expr Kwargs : Type) := {
  entities : list Entity;
  models : list (gmap string ref);
  rows : list (Row Expr Kwargs);
  adapters : list (Adapter Kwargs);
}.

Arguments entities {Expr Kwargs} w.
Arguments models {Expr Kwargs} w.
Arguments rows {Expr Kwargs} w.
Arguments adapters {Expr Kwargs} w.

(** ** Operations of a caller

    What a caller of the module can do to the stores: call a constructor,
    use an accessor or a method of an adapter, or (as cobra does) rename an
    entity or move it to another model. *)

Inductive Op (Expr Kwargs : Type) :=
  | Call_new (c : Class) (args : Args) (e : Expr) (kw : Kwargs)
  | Get_attrname (self : ref)
  | Get_id (self : ref)
  | Get_model (self : ref)
  | Get_name (self : ref)
  | Set_name (self : ref) (value : string)
  | Get_constraint (self : ref)
  | Set_constraint (self : ref) (value : ref)
  | Get_expr (self : ref)
  | Set_expr (self : ref) (value : Expr)
  | Call_make_name (self : ref)
  | Call_get_interface (self : ref) (e : Expr)
  | Call_repr (self : ref)
  | Rename_entity (e : ref) (value : string)
  | Move_entity (e : ref) (value : option ref).

Arguments Call_new {Expr Kwargs} c args e kw.
Arguments Get_attrname {Expr Kwargs} self.
Arguments Get_id {Expr Kwargs} self.
Arguments Get_model {Expr Kwargs} self.
Arguments Get_name {Expr Kwargs} self.
Arguments Set_name {Expr Kwargs} self value.
Arguments Get_constraint {Expr Kwargs} self.
Arguments Set_constraint {Expr Kwargs} self value.
Arguments Get_expr {Expr Kwargs} self.
Arguments Set_expr {Expr Kwargs} self value.
Arguments Call_make_name {Expr Kwargs} self.
Arguments Call_get_interface {Expr Kwargs} self e.
Arguments Call_repr {Expr Kwargs} self.
Arguments Rename_entity {Expr Kwargs} e value.
Arguments Move_entity {Expr Kwargs} e value.

(** ** A small model

    One model with the reactions R1 and FU_x; expressions are numbers, the
    options are pairs of a keyword and a number, and the backend takes every
    row and stores expressions as they come. *)

Definition demo_accepts (_ : nat) (_ : string) (_ : list (string * nat))
    : bool := true.

(** A backend that takes no row at all. *)
Definition demo_rejects (_ : nat) (_ : string) (_ : list (string * nat))
    : bool := false.

(** The options are a list of keywords with their values. *)
Definition demo_has (kw : list (string * nat)) (k : string) : bool :=
  existsb (λ p, String.eqb p.1 k) kw.

Definition demo_stores (e : nat) : nat := e.

Definition demo_repr (_ : nat) : string := "expr".

Definition demo_snake (s : string) : string := s.

Definition demo_world : World nat (list (string * nat)) :=
  {| entities := [ {| ent_id := "R1"; ent_model := Some 0 |};
                   {| ent_id := "FU_x"; ent_model := Some 0 |} ];
     models := [ ∅ ];
     rows := [];
     adapters := [] |}.

(** [demo_world] after [ForwardDeltaGCoupling(R1, expr=7)]. *)
Definition demo_world_FU_R1 : World nat (list (string * nat)) :=
  {| entities := entities demo_world;
     models := [ {[ "FU_R1" := 0 ]} ];
     rows := [ {| row_name := "FU_R1"; row_expression := 7;
                  row_options := [] |} ];
     adapters := [ {| cls := ForwardDeltaGCoupling; owner := Some 0;
                      _id := "R1"; _model := Some 0; kwargs := [];
                      _name := "FU_R1" |} ] |}.

(** [demo_world] after [ForwardDeltaGCoupling(FU_x, expr=7)]. *)
Definition demo_world_FU_FU_x : World nat (list (string * nat)) :=
  {| entities := entities demo_world;
     models := [ {[ "FU_FU_x" := 0 ]} ];
     rows := [ {| row_name := "FU_FU_x"; row_expression := 7;
                  row_options := [] |} ];
     adapters := [ {| cls := ForwardDeltaGCoupling; owner := Some 1;
                      _id := "FU_x"; _model := Some 0; kwargs := [];
                      _name := "FU_FU_x" |} ] |}.

(** [demo_world] after [ForbiddenProfile(M, expr=5, id="profile_1")]. *)
Definition demo_world_FP : World nat (list (string * nat)) :=
  {| entities := entities demo_world;
     models := [ {[ "FP_profile_1" := 0 ]} ];
     rows := [ {| row_name := "FP_profile_1"; row_expression := 5;
                  row_options := [] |} ];
     adapters := [ {| cls := ForbiddenProfile; owner := None;
                      _id := "profile_1"; _model := Some 0; kwargs := [];
                      _name := "FP_profile_1" |} ] |}.

(** [demo_world_FU_R1] after [NegativeDeltaG(R1, expr=4, ub=2)]. *)
Definition demo_world_two : World nat (list (string * nat)) :=
  {| entities := entities demo_world;
     models := [ {[ "FU_R1" := 0; "G_R1" := 1 ]} ];
     rows := [ {| row_name := "FU_R1"; row_expression := 7;
                  row_options := [] |};
               {| row_name := "G_R1"; row_expression := 4;
                  row_options := [("ub", 2)] |} ];
     adapters := [ {| cls := ForwardDeltaGCoupling; owner := Some 0;
                      _id := "R1"; _model := Some 0; kwargs := [];
                      _name := "FU_R1" |};
                   {| cls := NegativeDeltaG; owner := Some 0;
                      _id := "R1"; _model := Some 0; kwargs := [("ub", 2)];
                      _name := "G_R1" |} ] |}.

(** [demo_world_FU_R1] after a second [ForwardDeltaGCoupling(R1, expr=9,
    lb=1)]. *)
Definition demo_world_twice : World nat (list (string * nat)) :=
  {| entities := entities demo_world;
     models := models demo_world_FU_R1;
     rows := rows demo_world_FU_R1;
     adapters := adapters demo_world_FU_R1 ++
                 [ {| cls := ForwardDeltaGCoupling; owner := Some 0;
                      _id := "R1"; _model := Some 0; kwargs := [("lb", 1)];
                      _name := "FU_R1" |} ] |}.

(** A reaction that belongs to no model. *)
Definition demo_world_loose : World nat (list (string * nat)) :=
  {| entities := [ {| ent_id := "R1"; ent_model := None |} ];
     models := [ ∅ ];
     rows := [];
     adapters := [] |}.

(** Two models: R1 belongs to the first, which is empty; the second holds
    a row under the name FU_R1. *)
Definition demo_pair : World nat (list (string * nat)) :=
  {| entities := [ {| ent_id := "R1"; ent_model := Some 0 |} ];
     models := [ ∅; {[ "FU_R1" := 0 ]} ];
     rows := [ {| row_name := "FU_R1"; row_expression := 1;
                  row_options := [] |} ];
     adapters := [] |}.

(** [demo_pair] after [ForwardDeltaGCoupling(R1, expr=7)]. *)
Definition demo_pair_FU_R1 : World nat (list (string * nat)) :=
  {| entities := entities demo_pair;
     models := [ {[ "FU_R1" := 1 ]}; {[ "FU_R1" := 0 ]} ];
     rows := rows demo_pair ++
             [ {| row_name := "FU_R1"; row_expression := 7;
                  row_options := [] |} ];
     adapters := [ {| cls := ForwardDeltaGCoupling; owner := Some 0;
                      _id := "R1"; _model := Some 0; kwargs := [];
                      _name := "FU_R1" |} ] |}.

(** What a caller may do after the construction, short of assigning to the
    name of adapter 0. *)
Definition demo_ops : list (Op nat (list (string * nat))) :=
  [ Rename_entity 0 "R2";
    Set_expr 0 3;
    Call_new NegativeDeltaG (OfOwner 0) 4 [];
    Set_name 1 "other";
    Move_entity 0 None;
    Get_attrname 0;
    Get_name 0 ].

Section Constraints.

(** The collaborators outside the module: sympy expressions, the keyword
    options of the solver interface, and what the interface does with an
    expression it is handed. *)
Context {Expr Kwargs : Type}.

(** [key in kwargs]: does the options dictionary name the keyword?  (An
    options dictionary never names a parameter of the constructor it is
    handed to: Python refuses such a call before the initialiser runs.) *)
Variable has_keyword : Kwargs → string → bool.

(** Does [problem.Constraint(expression, name, **kwargs)] accept the row? *)
Variable backend_accepts : Expr → string → Kwargs → bool.
(** The expression a row holds once [expression] has been handed to it. *)
Variable backend_stores : Expr → Expr.
(** [expression.__repr__()] *)
Variable Expr_repr : Expr → string.
(** [pytfa.utils.str.camel2underscores], which is not part of this file. *)
Variable camel2underscores : string → string.

Local Abbreviation Row := (Row Expr Kwargs) (only parsing).
Local Abbreviation Adapter := (Adapter Kwargs) (only parsing).
Local Abbreviation World := (World Expr Kwargs) (only parsing).
Local Abbreviation Op := (Op Expr Kwargs) (only parsing).

Definition with_models (ms : list (gmap string ref)) (w : World) : World :=
  {| entities := entities w; models := ms; rows := rows w;
     adapters := adapters w |}.

Definition with_rows (rs : list Row) (w : World) : World :=
  {| entities := entities w; models := models w; rows := rs;
     adapters := adapters w |}.

Definition with_adapters (ads : list Adapter) (w : World) : World :=
  {| entities := entities w; models := models w; rows := rows w;
     adapters := ads |}.

Definition with_entities (es : list Entity) (w : World) : World :=
  {| entities := es; models := models w; rows := rows w;
     adapters := adapters w |}.

(** ** The monad *)

Definition M (A : Type) : Type := World → Res (A * World).

Definition ret {A} (a : A) : M A := λ w, Ok (a, w).

Definition raise {A} (e : Exn) : M A := λ _, Raise e.

Definition bind {A B} (m : M A) (k : A → M B) : M B :=
  λ w, match m w with
       | Ok (a, w') => k a w'
       | Raise e => Raise e
       end.

Notation "'let*' x := m 'in' k" := (bind m (λ x, k))
  (at level 10, x name, m at level 100, k at level 200,
   format "'[v' 'let*'  x  :=  m  'in' '/' k ']'").
Notation "m ;; k" := (bind m (λ _, k))
  (at level 100, k at level 200, right associativity,
   format "'[v' m  ;; '/' k ']'").

Definition gets {A} (f : World → A) : M A := λ w, Ok (f w, w).

Definition modify (f : World → World) : M unit := λ w, Ok (tt, f w).

(** Dereference: the object a reference denotes in a store. *)
Definition deref {A} (store : World → list A) (r : ref) : M A :=
  let* s := gets store in
  match s !! r with
  | Some x => ret x
  | None => raise InvalidReference
  end.

(** A call that passes the keywords [explicit] next to [**kw]: Python
    raises TypeError (multiple values for a keyword argument) when [kw]
    names one of them, before the callee is entered. *)
Definition spread (explicit : list string) (kw : Kwargs) : M unit :=
  if existsb (has_keyword kw) explicit then raise TypeError else ret tt.

(** ** The collaborators' operations

    cobra's model and entities and the solver interface are not part of the
    module; they are modelled from section 6 of the specification. *)

(** Modelled from the spec: the owning entity exposes its identifier and a
    back-reference to its model; [entity.id] and [entity.model]. *)
Definition Entity_id (e : ref) : M string :=
  let* x := deref entities e in ret (ent_id x).

Definition Entity_model (e : ref) : M (option ref) :=
  let* x := deref entities e in ret (ent_model x).

(** Modelled from the spec: the model exposes a mapping from constraint
    names to rows; [model.constraints], where [model] may be [None]. *)
Definition Model_constraints (model : option ref) : M (gmap string ref) :=
  match model with
  | Some m => deref models m
  | None => raise AttributeError
  end.

(** Modelled from the spec: keyed lookup in the mapping;
    [model.constraints[key]]. *)
Definition constraints_getitem (model : option ref) (key : string) : M ref :=
  let* cs := Model_constraints model in
  match cs !! key with
  | Some c => ret c
  | None => raise (KeyError key)
  end.

(** Modelled from the spec: keyed assignment in the mapping;
    [model.constraints[key] = value]. *)
Definition constraints_setitem (model : option ref) (key : string)
    (value : ref) : M unit :=
  match model with
  | Some m =>
      let* cs := deref models m in
      modify (λ w, with_models (<[m := <[key := value]> cs]> (models w)) w)
  | None => raise AttributeError
  end.

(** Modelled from the spec: the factory that creates a row from an
    expression, a name and the backend's keyword options, or rejects it;
    [model.problem.Constraint(expression=expr, name=name, **kwargs)].  The
    new row is not yet part of any model. *)
Definition problem_Constraint (model : option ref) (expr : Expr)
    (name : string) (kw : Kwargs) : M ref :=
  match model with
  | Some _ =>
      if backend_accepts expr name kw then
        let* rs := gets rows in
        modify (with_rows (rs ++ [ {| row_name := name;
                                      row_expression := backend_stores expr;
                                      row_options := kw |} ]));;
        ret (length rs)
      else raise BackendError
  | None => raise AttributeError
  end.

(** Modelled from the spec: the method that registers a new row in the
    model's collection, under the row's own name;
    [model.add_cons_vars(constraint)]. *)
Definition add_cons_vars (model : option ref) (constraint : ref) : M unit :=
  let* row := deref rows constraint in
  constraints_setitem model (row_name row) constraint.

(** Modelled from the spec: a row exposes a mutable expression;
    [row.expression] and [row.expression = value]. *)
Definition Row_expression (c : ref) : M Expr :=
  let* row := deref rows c in ret (row_expression row).

Definition Row_set_expression (c : ref) (value : Expr) : M unit :=
  let* row := deref rows c in
  modify (λ w, with_rows (<[c := {| row_name := row_name row;
                                    row_expression := backend_stores value;
                                    row_options := row_options row |}]>
                            (rows w)) w).

(** ** GenericConstraint and its subclasses *)

Definition GenericConstraint_id (self : ref) : M string :=
  let* a := deref adapters self in ret (_id a).

Definition GenericConstraint_model (self : ref) : M (option ref) :=
  let* a := deref adapters self in ret (_model a).

(** [self.reaction] and [self.metabolite] *)
Definition self_owner (self : ref) : M ref :=
  let* a := deref adapters self in
  match owner a with
  | Some o => ret o
  | None => raise AttributeError
  end.

Definition ReactionConstraint_id (self : ref) : M string :=
  let* reaction := self_owner self in Entity_id reaction.

Definition ReactionConstraint_model (self : ref) : M (option ref) :=
  let* reaction := self_owner self in Entity_model reaction.

Definition MetaboliteConstraint_id (self : ref) : M string :=
  let* metabolite := self_owner self in Entity_id metabolite.

Definition MetaboliteConstraint_model (self : ref) : M (option ref) :=
  let* metabolite := self_owner self in Entity_model metabolite.

(** [self.id] and [self.model], resolved by the class of [self]. *)
Definition id (self : ref) : M string :=
  let* a := deref adapters self in
  match binding (cls a) with
  | ByReaction => ReactionConstraint_id self
  | ByMetabolite => MetaboliteConstraint_id self
  | Unbound => GenericConstraint_id self
  end.

Definition model (self : ref) : M (option ref) :=
  let* a := deref adapters self in
  match binding (cls a) with
  | ByReaction => ReactionConstraint_model self
  | ByMetabolite => MetaboliteConstraint_model self
  | Unbound => GenericConstraint_model self
  end.

(** [self.__attrname__]: the class name in snake case. *)
Definition __attrname__ (self : ref) : M string :=
  let* a := deref adapters self in
  ret (camel2underscores (Class_name (cls a))).

(** [self.name] and [self.name = value] *)
Definition name (self : ref) : M string :=
  let* a := deref adapters self in ret (_name a).

Definition set_name (self : ref) (value : string) : M unit :=
  let* a := deref adapters self in
  modify (λ w, with_adapters (<[self := {| cls := cls a; owner := owner a;
                                           _id := _id a; _model := _model a;
                                           kwargs := kwargs a;
                                           _name := value |}]> (adapters w)) w).

(** [self.make_name()], resolved by the class of [self]. *)
Definition make_name (self : ref) : M string :=
  let* a := deref adapters self in
  let* i := id self in
  ret match cls a with
      | NegativeDeltaG => "G_" +:+ i
      | ForwardDeltaGCoupling => "FU_" +:+ i
      | BackwardDeltaGCoupling => "BU_" +:+ i
      | ForwardDirectionCoupling => "UF_" +:+ i
      | BackwardDirectionCoupling => "UR_" +:+ i
      | SimultaneousUse => "SU_" +:+ i
      | DisplacementCoupling => "DC_" +:+ i
      | ForbiddenProfile => "FP_" +:+ i
      | GenericConstraint | ReactionConstraint | MetaboliteConstraint => i
      end.

(** [self.constraint] and [self.constraint = value] *)
Definition constraint (self : ref) : M ref :=
  let* m := model self in
  let* n := name self in
  constraints_getitem m n.

Definition set_constraint (self : ref) (value : ref) : M unit :=
  let* m := model self in
  let* n := name self in
  constraints_setitem m n value.

(** [self.expr] and [self.expr = value] *)
Definition expr (self : ref) : M Expr :=
  let* c := constraint self in Row_expression c.

Definition set_expr (self : ref) (value : Expr) : M unit :=
  let* c := constraint self in Row_set_expression c value.

(** [self.kwargs] *)
Definition self_kwargs (self : ref) : M Kwargs :=
  let* a := deref adapters self in ret (kwargs a).

Definition get_interface (self : ref) (e : Expr) : M unit :=
  let* n := name self in
  let* m := model self in
  let* cs := Model_constraints m in
  match cs !! n with
  | None =>
      (* not self.name in self.model.constraints *)
      let* m := model self in
      let* n := name self in
      let* kw := self_kwargs self in
      (* Constraint(expression = expr, name = self.name, **self.kwargs) *)
      spread ["expression"; "name"] kw;;
      let* c := problem_Constraint m e n kw in
      let* m := model self in
      add_cons_vars m c
  | Some existing =>
      (* self.constraint = self.model.constraints.get(self.name) *)
      set_constraint self existing
  end.

Definition __repr__ (self : ref) : M string :=
  let* n := name self in
  let* e := expr self in
  ret (n +:+ ": " +:+ Expr_repr e).

(** [GenericConstraint.__init__].  [c] and [o] are the class of [self] and
    the owner attribute the initialiser of a bound class has set before it
    calls this one; [_name] is assigned right after the other attributes. *)
Definition GenericConstraint_init (c : Class) (o : option ref)
    (i : string) (e : Expr) (m : option ref) (kw : Kwargs) : M ref :=
  let* ads := gets adapters in
  let self := length ads in
  modify (with_adapters (ads ++ [ {| cls := c; owner := o; _id := i;
                                     _model := m; kwargs := kw;
                                     _name := "" |} ]));;
  let* n := make_name self in
  set_name self n;;
  get_interface self e;;
  ret self.

Definition ReactionConstraint_init (c : Class) (reaction : ref) (e : Expr)
    (kw : Kwargs) : M ref :=
  let* m := Entity_model reaction in
  let* i := Entity_id reaction in
  (* GenericConstraint.__init__(self, id=self.id, expr=expr, model=model,
                                **kwargs); kwargs cannot hold expr, which is
     a parameter of this initialiser *)
  spread ["id"; "model"] kw;;
  GenericConstraint_init c (Some reaction) i e m kw.

Definition MetaboliteConstraint_init (c : Class) (metabolite : ref)
    (e : Expr) (kw : Kwargs) : M ref :=
  let* m := Entity_model metabolite in
  let* i := Entity_id metabolite in
  (* GenericConstraint.__init__(self, id=self.id, expr=expr, model=model,
                                **kwargs); kwargs cannot hold expr, which is
     a parameter of this initialiser *)
  spread ["id"; "model"] kw;;
  GenericConstraint_init c (Some metabolite) i e m kw.

Definition ForbiddenProfile_init (c : Class) (m : option ref) (e : Expr)
    (i : string) (kw : Kwargs) : M ref :=
  GenericConstraint_init c None i e m kw.

(** A constructor call [c(...)]: the initialiser the class inherits. *)
Definition new (c : Class) (args : Args) (e : Expr) (kw : Kwargs) : M ref :=
  match binding c, args with
  | ByReaction, OfOwner reaction => ReactionConstraint_init c reaction e kw
  | ByMetabolite, OfOwner metabolite =>
      MetaboliteConstraint_init c metabolite e kw
  | Unbound, OfModel m i =>
      match c with
      | ForbiddenProfile => ForbiddenProfile_init c m e i kw
      | _ => GenericConstraint_init c None i e m kw
      end
  | _, _ => raise TypeError
  end.

(** ** Running the operations of a caller *)

(** [entity.id = value] and [entity.model = value], as cobra does them. *)
Definition Entity_set_id (e : ref) (value : string) : M unit :=
  let* x := deref entities e in
  modify (λ w, with_entities (<[e := {| ent_id := value;
                                        ent_model := ent_model x |}]>
                                (entities w)) w).

Definition Entity_set_model (e : ref) (value : option ref) : M unit :=
  let* x := deref entities e in
  modify (λ w, with_entities (<[e := {| ent_id := ent_id x;
                                        ent_model := value |}]>
                                (entities w)) w).

Definition discard {A} (m : M A) : M unit := m;; ret tt.

Definition run_op (op : Op) : M unit :=
  match op with
  | Call_new c args e kw => discard (new c args e kw)
  | Get_attrname self => discard (__attrname__ self)
  | Get_id self => discard (id self)
  | Get_model self => discard (model self)
  | Get_name self => discard (name self)
  | Set_name self value => set_name self value
  | Get_constraint self => discard (constraint self)
  | Set_constraint self value => set_constraint self value
  | Get_expr self => discard (expr self)
  | Set_expr self value => set_expr self value
  | Call_make_name self => discard (make_name self)
  | Call_get_interface self e => get_interface self e
  | Call_repr self => discard (__repr__ self)
  | Rename_entity e value => Entity_set_id e value
  | Move_entity e value => Entity_set_model e value
  end.

(** The stores after an operation.  An operation that raises leaves them
    as they were: a method raises before its first write to a model or a
    row, and the object of a constructor call that raises is unreachable. *)
Definition perform (w : World) (op : Op) : World :=
  match run_op op w with
  | Ok (_, w') => w'
  | Raise _ => w
  end.

Definition perform_all (ops : list Op) (w : World) : World :=
  foldl perform w ops.

(** Is [op] an assignment to the [name] of [self]? *)
Definition renames (self : ref) (op : Op) : bool :=
  match op with
  | Set_name self' _ => bool_decide (self' = self)
  | _ => false
  end.

(** The identifier and the model a constructor call resolves to: those of
    the owner for a bound class, those handed over for the others.  [None]
    when the call does not fit the class, the owner does not exist or it
    belongs to no model. *)
Definition call_target (w : World) (c : Class) (args : Args)
    : option (string * ref) :=
  match binding c, args with
  | (ByReaction | ByMetabolite), OfOwner o =>
      match entities w !! o with
      | Some x =>
          match ent_model x with
          | Some m => Some (ent_id x, m)
          | None => None
          end
      | None => None
      end
  | Unbound, OfModel (Some m) i => Some (i, m)
  | _, _ => None
  end.

(** The rows a constraints mapping holds under a name. *)
Definition rows_named (n : string) (cs : gmap string ref) : list ref :=
  (filter (λ kv, kv.1 = n) (map_to_list cs)).*2.

(** The adapter and the row a constructor call leaves in the stores. *)
Definition built_adapter (c : Class) (o : option ref) (i : string)
    (m : option ref) (kw : Kwargs) : Adapter :=
  {| cls := c; owner := o; _id := i; _model := m; kwargs := kw;
     _name := spec_prefix c +:+ i |}.

Definition built_row (n : string) (e : Expr) (kw : Kwargs) : Row :=
  {| row_name := n; row_expression := backend_stores e; row_options := kw |}.

(** What [self.id] and [self.model] resolve to for an adapter object:
    the stored attributes for an unbound class, the owner's for a bound one. *)
Definition resolves (w : World) (a : Adapter) (i : string)
    (m : option ref) : Prop :=
  match binding (cls a) with
  | Unbound => _id a = i ∧ _model a = m
  | ByReaction | ByMetabolite =>
      ∃ o x, owner a = Some o ∧ entities w !! o = Some x ∧
             ent_id x = i ∧ ent_model x = m
  end.

(** The stores a constructor call leaves when it had to create the row. *)
Definition registered (c : Class) (o : option ref) (i : string) (e : Expr)
    (m : ref) (kw : Kwargs) (cs : gmap string ref) (w : World) : World :=
  {| entities := entities w;
     models := <[m := <[spec_prefix c +:+ i := length (rows w)]> cs]>
                 (models w);
     rows := rows w ++ [built_row (spec_prefix c +:+ i) e kw];
     adapters := adapters w ++ [built_adapter c o i (Some m) kw] |}.

(** The stores a constructor call leaves when the name was taken. *)
Definition attached (c : Class) (o : option ref) (i : string)
    (m : ref) (kw : Kwargs) (w : World) : World :=
  with_adapters (adapters w ++ [built_adapter c o i (Some m) kw]) w.

(** Do the options of a constructor call repeat a keyword that the
    initialiser of a bound class passes on itself ([id], [model])? *)
Definition repeats_init (c : Class) (kw : Kwargs) : bool :=
  match binding c with
  | ByReaction | ByMetabolite => existsb (has_keyword kw) ["id"; "model"]
  | Unbound => false
  end.

(** Do the options repeat a keyword that [get_interface] passes to the
    backend itself ([expression], [name])? *)
Definition repeats_row (kw : Kwargs) : bool :=
  existsb (has_keyword kw) ["expression"; "name"].

(** The outcome of [GenericConstraint.__init__] for identifier [i] and
    model [m]. *)
Definition outcome (c : Class) (o : option ref) (i : string) (e : Expr)
    (m : option ref) (kw : Kwargs) (w : World) : Res (ref * World) :=
  match m with
  | None => Raise AttributeError
  | Some m =>
      match models w !! m with
      | None => Raise InvalidReference
      | Some cs =>
          match cs !! (spec_prefix c +:+ i) with
          | Some _ => Ok (length (adapters w), attached c o i m kw w)
          | None =>
              if repeats_row kw then Raise TypeError
              else if backend_accepts e (spec_prefix c +:+ i) kw
              then Ok (length (adapters w), registered c o i e m kw cs w)
              else Raise BackendError
          end
      end
  end.

(** The owner attribute a constructor call sets. *)
Definition call_owner (args : Args) : option ref :=
  match args with
  | OfOwner o => Some o
  | OfModel _ _ => None
  end.

(** A computation that leaves the adapter objects as they are. *)
Definition keeps_adapters {A} (m : M A) : Prop :=
  ∀ w x w', m w = Ok (x, w') → adapters w' = adapters w.

(** A computation that only reads the stores. *)
Definition reads_only {A} (m : M A) : Prop :=
  ∀ w x w', m w = Ok (x, w') → w' = w.

(** The stores are consistent when every row a model holds exists and is
    held under the row's own name. *)
Definition consistent (w : World) : Prop :=
  Forall (map_Forall (λ n l, row_name <$> rows w !! l = Some n)) (models w).

(** Is [op] an assignment to the [constraint] of an adapter? *)
Definition rebinds (op : Op) : bool :=
  match op with
  | Set_constraint _ _ => true
  | _ => false
  end.

(** ** Running the monad *)

Lemma bind_Ok {A B} (m : M A) (k : A → M B) w a w1 :
  m w = Ok (a, w1) → bind m k w = k a w1.
Proof. unfold bind. by intros ->. Qed.

Lemma bind_Raise {A B} (m : M A) (k : A → M B) w e :
  m w = Raise e → bind m k w = Raise e.
Proof. unfold bind. by intros ->. Qed.

Lemma bind_inv {A B} (m : M A) (k : A → M B) w b w2 :
  bind m k w = Ok (b, w2) →
  ∃ a w1, m w = Ok (a, w1) ∧ k a w1 = Ok (b, w2).
Proof.
  unfold bind. destruct (m w) as [[a w1]|e]; [|done].
  intros Hk. by exists a, w1.
Qed.

Lemma deref_Some {A} (store : World → list A) r x w :
  store w !! r = Some x → deref store r w = Ok (x, w).
Proof. unfold deref, bind, gets. by intros ->. Qed.

Lemma deref_inv {A} (store : World → list A) r x w w' :
  deref store r w = Ok (x, w') → w' = w ∧ store w !! r = Some x.
Proof.
  unfold deref, bind, gets, ret, raise.
  destruct (store w !! r); naive_solver.
Qed.

(** The class-specific naming rules agree with the table of prefixes. *)
Lemma make_name_prefix c (i : string) :
  match c with
  | NegativeDeltaG => "G_" +:+ i
  | ForwardDeltaGCoupling => "FU_" +:+ i
  | BackwardDeltaGCoupling => "BU_" +:+ i
  | ForwardDirectionCoupling => "UF_" +:+ i
  | BackwardDirectionCoupling => "UR_" +:+ i
  | SimultaneousUse => "SU_" +:+ i
  | DisplacementCoupling => "DC_" +:+ i
  | ForbiddenProfile => "FP_" +:+ i
  | GenericConstraint | ReactionConstraint | MetaboliteConstraint => i
  end = spec_prefix c +:+ i.
Proof. by destruct c. Qed.

(** Symbolic execution: unfold the methods down to the lookups in the
    stores, and resolve each lookup the context knows the result of. *)
Ltac unfold_methods :=
  cbv beta iota delta
    [bind ret raise gets modify deref discard spread
     Entity_id Entity_model Entity_set_id Entity_set_model
     Model_constraints constraints_getitem constraints_setitem
     problem_Constraint add_cons_vars Row_expression Row_set_expression
     GenericConstraint_id GenericConstraint_model self_owner
     ReactionConstraint_id ReactionConstraint_model
     MetaboliteConstraint_id MetaboliteConstraint_model
     __attrname__ self_kwargs
     id model name set_name make_name constraint set_constraint
     expr set_expr get_interface __repr__
     GenericConstraint_init ReactionConstraint_init
     MetaboliteConstraint_init ForbiddenProfile_init];
  cbn [with_models with_rows with_adapters with_entities
       attached registered built_adapter built_row
       entities models rows adapters
       cls owner _id _model kwargs _name
       ent_id ent_model row_name row_expression row_options].

Ltac resolve_lookup :=
  match goal with
  | H : ?x = Some _ |- context [match ?x with _ => _ end] => rewrite H
  | H : ?x = None |- context [match ?x with _ => _ end] => rewrite H
  | H : ?x = true |- context [if ?x then _ else _] => rewrite H
  | H : ?x = false |- context [if ?x then _ else _] => rewrite H
  | H : binding ?c = _ |- context [match binding ?c with _ => _ end] =>
      rewrite H
  end.

Ltac run := unfold_methods; repeat (resolve_lookup; unfold_methods).

(** ** Accessors *)

Lemma name_eq self w a :
  adapters w !! self = Some a → name self w = Ok (_name a, w).
Proof. intros. by run. Qed.

Lemma id_eq self w a i m :
  adapters w !! self = Some a → resolves w a i m → id self w = Ok (i, w).
Proof.
  intros Ha Hr. unfold resolves in Hr.
  destruct (binding (cls a)) eqn:Hb.
  - destruct Hr as (o & x & Ho & Hx & <- & _). by run.
  - destruct Hr as (o & x & Ho & Hx & <- & _). by run.
  - destruct Hr as [<- _]. by run.
Qed.

Lemma model_eq self w a i m :
  adapters w !! self = Some a → resolves w a i m → model self w = Ok (m, w).
Proof.
  intros Ha Hr. unfold resolves in Hr.
  destruct (binding (cls a)) eqn:Hb.
  - destruct Hr as (o & x & Ho & Hx & _ & <-). by run.
  - destruct Hr as (o & x & Ho & Hx & _ & <-). by run.
  - destruct Hr as [_ <-]. by run.
Qed.

Lemma constraint_eq self w a i m cs :
  adapters w !! self = Some a → resolves w a i (Some m) →
  models w !! m = Some cs →
  constraint self w =
    match cs !! _name a with
    | Some c => Ok (c, w)
    | None => Raise (KeyError (_name a))
    end.
Proof.
  intros Ha Hr Hcs. unfold constraint.
  rewrite (bind_Ok _ _ _ _ _ (model_eq _ _ _ _ _ Ha Hr)).
  rewrite (bind_Ok _ _ _ _ _ (name_eq _ _ _ Ha)).
  run. by destruct (cs !! _name a).
Qed.

Lemma model_inv self w m w0 :
  model self w = Ok (m, w0) →
  ∃ a i, w0 = w ∧ adapters w !! self = Some a ∧ resolves w a i m.
Proof.
  unfold resolves. unfold_methods. intros H.
  repeat case_match; simplify_eq;
    eexists _, _; (split; [done|]); (split; [done|]);
    match goal with Hb : binding _ = _ |- _ => rewrite Hb end; eauto 12.
Qed.

Lemma constraint_inv self w l w0 :
  constraint self w = Ok (l, w0) →
  ∃ a i m cs,
    w0 = w ∧ adapters w !! self = Some a ∧ resolves w a i (Some m) ∧
    models w !! m = Some cs ∧ cs !! _name a = Some l.
Proof.
  unfold constraint. intros (m & w1 & Hm & H)%bind_inv.
  apply model_inv in Hm as (a & i & -> & Ha & Hr).
  rewrite (bind_Ok _ _ _ _ _ (name_eq _ _ _ Ha)) in H.
  revert H. unfold_methods. intros H.
  repeat case_match; simplify_eq; eauto 12.
Qed.

(** ** Construction *)

Lemma insert_snoc {A} (l : list A) (x y : A) :
  <[length l := y]> (l ++ [x]) = l ++ [y].
Proof. rewrite insert_app_r_alt by lia. by rewrite Nat.sub_diag. Qed.

Lemma lookup_snoc {A} (l : list A) (x : A) :
  (l ++ [x]) !! length l = Some x.
Proof. by apply list_lookup_middle. Qed.

Ltac run_init :=
  unfold_methods;
  repeat (first [ resolve_lookup
                | rewrite lookup_snoc
                | rewrite insert_snoc
                | rewrite make_name_prefix ];
          unfold_methods).

(** [GenericConstraint.__init__] in one equation. *)
Lemma GenericConstraint_init_eq c o i e m kw w :
  resolves w (built_adapter c o i m kw) i m →
  GenericConstraint_init c o i e m kw w = outcome c o i e m kw w.
Proof.
  intros Hr. unfold resolves in Hr.
  cbn [built_adapter cls owner _id _model] in Hr.
  unfold outcome, attached, registered, repeats_row.
  destruct (binding c) eqn:Hb;
    [ destruct Hr as (r & x & -> & Hx & <- & Hm)
    | destruct Hr as (r & x & -> & Hx & <- & Hm)
    | clear Hr ];
    (destruct m as [m|]; [|by run_init]);
    (destruct (models w !! m) as [cs|] eqn:Hcs; [|by run_init]);
    run_init;
    (destruct (cs !! _) as [l|] eqn:Hl; run_init;
     [ rewrite insert_id by done; by rewrite list_insert_id by done
     | destruct (existsb _ _) eqn:Hrow; run_init; [done|];
       by destruct (backend_accepts _ _ _) eqn:Hacc; run_init ]).
Qed.

Lemma spread_eq explicit kw w :
  spread explicit kw w
  = if existsb (has_keyword kw) explicit then Raise TypeError else Ok (tt, w).
Proof. unfold spread. by destruct (existsb _ _). Qed.

(** The initialisers of the bound classes in one equation. *)
Lemma ReactionConstraint_init_eq c o e kw w x :
  binding c = ByReaction →
  entities w !! o = Some x →
  ReactionConstraint_init c o e kw w
  = if existsb (has_keyword kw) ["id"; "model"] then Raise TypeError
    else outcome c (Some o) (ent_id x) e (ent_model x) kw w.
Proof.
  intros Hb Hx. unfold ReactionConstraint_init.
  rewrite (bind_Ok (Entity_model o) _ w (ent_model x) w) by (by run).
  rewrite (bind_Ok (Entity_id o) _ w (ent_id x) w) by (by run).
  unfold bind at 1. rewrite spread_eq.
  destruct (existsb _ _); [done|].
  apply GenericConstraint_init_eq.
  unfold resolves; cbn; rewrite Hb. eauto 10.
Qed.

Lemma MetaboliteConstraint_init_eq c o e kw w x :
  binding c = ByMetabolite →
  entities w !! o = Some x →
  MetaboliteConstraint_init c o e kw w
  = if existsb (has_keyword kw) ["id"; "model"] then Raise TypeError
    else outcome c (Some o) (ent_id x) e (ent_model x) kw w.
Proof.
  intros Hb Hx. unfold MetaboliteConstraint_init.
  rewrite (bind_Ok (Entity_model o) _ w (ent_model x) w) by (by run).
  rewrite (bind_Ok (Entity_id o) _ w (ent_id x) w) by (by run).
  unfold bind at 1. rewrite spread_eq.
  destruct (existsb _ _); [done|].
  apply GenericConstraint_init_eq.
  unfold resolves; cbn; rewrite Hb. eauto 10.
Qed.

Lemma new_eq c args e kw w i m :
  call_target w c args = Some (i, m) →
  new c args e kw w
  = if repeats_init c kw then Raise TypeError
    else outcome c (call_owner args) i e (Some m) kw w.
Proof.
  unfold call_target, new, repeats_init. intros Ht.
  destruct (binding c) eqn:Hb, args as [o|[m'|] i']; try done;
    try (destruct (entities w !! o) as [x|] eqn:Hx; [|done];
         destruct (ent_model x) as [mx|] eqn:Hm; [|done]);
    simplify_eq; cbn [call_owner].
  - rewrite (ReactionConstraint_init_eq _ _ _ _ _ _ Hb Hx). by rewrite Hm.
  - rewrite (MetaboliteConstraint_init_eq _ _ _ _ _ _ Hb Hx). by rewrite Hm.
  - assert (GenericConstraint_init c None i e (Some m) kw w
            = outcome c None i e (Some m) kw w) as <-.
    { apply GenericConstraint_init_eq. unfold resolves; cbn. by rewrite Hb. }
    by destruct c.
Qed.

(** A constructor call that returns had a target, the target exists, and
    the options did not repeat a keyword of the initialiser. *)
Lemma new_Ok_inv c args e kw w a w' :
  new c args e kw w = Ok (a, w') →
  ∃ i m cs, call_target w c args = Some (i, m) ∧ models w !! m = Some cs.
Proof.
  destruct (call_target w c args) as [[i m]|] eqn:Ht.
  - rewrite (new_eq _ _ _ _ _ _ _ Ht). unfold outcome.
    destruct (repeats_init c kw); [done|].
    destruct (models w !! m) as [cs|] eqn:Hcs; [|done]. eauto.
  - unfold call_target in Ht. unfold new.
    destruct (binding c) eqn:Hb, args as [o|[m'|] i']; try done.
    + destruct (entities w !! o) as [x|] eqn:Hx;
        [|by unfold ReactionConstraint_init; run].
      rewrite (ReactionConstraint_init_eq _ _ _ _ _ _ Hb Hx).
      destruct (ent_model x) as [mx|] eqn:Hm; [done|].
      by destruct (existsb _ _).
    + destruct (entities w !! o) as [x|] eqn:Hx;
        [|by unfold MetaboliteConstraint_init; run].
      rewrite (MetaboliteConstraint_init_eq _ _ _ _ _ _ Hb Hx).
      destruct (ent_model x) as [mx|] eqn:Hm; [done|].
      by destruct (existsb _ _).
    + assert (GenericConstraint_init c None i' e None kw w
              = outcome c None i' e None kw w) as Heq.
      { apply GenericConstraint_init_eq. unfold resolves; cbn. by rewrite Hb. }
      destruct c; try done; unfold ForbiddenProfile_init; by rewrite Heq.
Qed.

Lemma new_Ok_init c args e kw w a w' :
  new c args e kw w = Ok (a, w') → repeats_init c kw = false.
Proof.
  intros Hnew.
  destruct (new_Ok_inv _ _ _ _ _ _ _ Hnew) as (i & m & cs & Ht & _).
  rewrite (new_eq _ _ _ _ _ _ _ Ht) in Hnew.
  by destruct (repeats_init c kw).
Qed.

Lemma new_present c args e kw w i m cs l :
  call_target w c args = Some (i, m) →
  repeats_init c kw = false →
  models w !! m = Some cs →
  cs !! (spec_prefix c +:+ i) = Some l →
  new c args e kw w
  = Ok (length (adapters w), attached c (call_owner args) i m kw w).
Proof.
  intros Ht Hk Hcs Hl. rewrite (new_eq _ _ _ _ _ _ _ Ht). unfold outcome.
  by rewrite Hk, Hcs, Hl.
Qed.


(** What a constructor call that returns has done to the stores. *)
Lemma new_post c args e kw w a w' i m :
  call_target w c args = Some (i, m) →
  new c args e kw w = Ok (a, w') →
  ∃ cs l,
    a = length (adapters w) ∧
    entities w' = entities w ∧
    adapters w' =
      adapters w ++ [built_adapter c (call_owner args) i (Some m) kw] ∧
    models w !! m = Some cs ∧
    models w' = <[m := <[spec_prefix c +:+ i := l]> cs]> (models w) ∧
    (cs !! (spec_prefix c +:+ i) = Some l ∧ rows w' = rows w
     ∨ cs !! (spec_prefix c +:+ i) = None ∧
       backend_accepts e (spec_prefix c +:+ i) kw = true ∧
       l = length (rows w) ∧
       rows w' = rows w ++ [built_row (spec_prefix c +:+ i) e kw]).
Proof.
  intros Ht. rewrite (new_eq _ _ _ _ _ _ _ Ht). unfold outcome.
  destruct (repeats_init c kw); [done|].
  destruct (models w !! m) as [cs|] eqn:Hcs; [|done].
  destruct (cs !! _) as [l|] eqn:Hl.
  - intros [= <- <-]. exists cs, l. cbn.
    rewrite insert_id by done. rewrite list_insert_id by done. eauto 10.
  - destruct (repeats_row kw); [done|].
    destruct (backend_accepts _ _ _) eqn:Hacc; [|done].
    intros [= <- <-]. exists cs, (length (rows w)). cbn. eauto 10.
Qed.

Lemma call_target_resolves c args w w' i m kw :
  call_target w c args = Some (i, m) →
  entities w' = entities w →
  resolves w' (built_adapter c (call_owner args) i (Some m) kw) i (Some m).
Proof.
  unfold call_target, resolves. cbn. intros Ht ->.
  destruct (binding c), args as [o|[m'|] i']; try done;
    try (destruct (entities w !! o) as [x|] eqn:Hx; [|done];
         destruct (ent_model x) as [mx|] eqn:Hm; [|done]);
    simplify_eq; cbn; eauto 10.
Qed.

Lemma filter_key_none {A} (n : string) (l : list (string * A)) :
  n ∉ l.*1 → filter (λ kv, kv.1 = n) l = [].
Proof.
  induction l as [|[k y] l IH]; [done|].
  rewrite fmap_cons, not_elem_of_cons. cbn [fst]. intros [Hk Hl].
  rewrite filter_cons_False; [by apply IH|]. cbn. congruence.
Qed.

(** A mapping holds exactly one row under a name it has. *)
Lemma filter_key_NoDup {A} (n : string) (x : A) (l : list (string * A)) :
  NoDup l.*1 → (n, x) ∈ l → filter (λ kv, kv.1 = n) l = [(n, x)].
Proof.
  induction l as [|[k y] l IH]; intros Hnd Hin.
  - by apply elem_of_nil in Hin.
  - apply NoDup_cons in Hnd as [Hk Hnd].
    apply elem_of_cons in Hin as [[= <- <-]|Hin].
    + rewrite filter_cons_True by done. f_equal.
      by apply filter_key_none.
    + rewrite filter_cons_False; [by apply IH|].
      cbn. intros ->. apply Hk, list_elem_of_fmap. by exists (n, x).
Qed.

Lemma rows_named_lookup n (cs : gmap string ref) l :
  cs !! n = Some l → rows_named n cs = [l].
Proof.
  intros Hl. unfold rows_named.
  rewrite (filter_key_NoDup n l); [done| |].
  - apply NoDup_fst_map_to_list.
  - by apply elem_of_map_to_list.
Qed.

(** What the accessors of a freshly constructed adapter return. *)
Lemma new_bound c args e kw w a w' i m :
  call_target w c args = Some (i, m) →
  new c args e kw w = Ok (a, w') →
  ∃ cs' l,
    adapters w' !! a = Some (built_adapter c (call_owner args) i (Some m) kw) ∧
    resolves w' (built_adapter c (call_owner args) i (Some m) kw) i (Some m) ∧
    models w' !! m = Some cs' ∧
    cs' !! (spec_prefix c +:+ i) = Some l ∧
    constraint a w' = Ok (l, w').
Proof.
  intros Ht Hnew.
  destruct (new_post _ _ _ _ _ _ _ _ _ Ht Hnew)
    as (cs & l & -> & Hent & Hads & Hcs & Hmod & _).
  assert (adapters w' !! length (adapters w)
          = Some (built_adapter c (call_owner args) i (Some m) kw)) as Ha.
  { rewrite Hads. apply lookup_snoc. }
  assert (models w' !! m = Some (<[spec_prefix c +:+ i := l]> cs)) as Hm.
  { rewrite Hmod. apply list_lookup_insert_eq. by eapply lookup_lt_Some. }
  pose proof (call_target_resolves _ _ _ _ _ _ kw Ht Hent) as Hr.
  eexists _, l. repeat split; try done.
  - apply lookup_insert_eq.
  - rewrite (constraint_eq _ _ _ _ _ _ Ha Hr Hm). cbn [built_adapter _name].
    by rewrite lookup_insert_eq.
Qed.

(** ** Which methods write to an adapter

    Only the setter of [name] and the constructors write to the store of
    adapters; every other operation leaves it as it is. *)

Lemma keeps_ret {A} (a : A) : keeps_adapters (ret a).
Proof. by intros w x w' [= _ <-]. Qed.

Lemma keeps_raise {A} e : keeps_adapters (raise (A:=A) e).
Proof. by intros w x w'. Qed.

Lemma keeps_gets {A} (f : World → A) : keeps_adapters (gets f).
Proof. by intros w x w' [= _ <-]. Qed.

Lemma keeps_modify f :
  (∀ w, adapters (f w) = adapters w) → keeps_adapters (modify f).
Proof. intros Hf w x w' [= _ <-]. apply Hf. Qed.

Lemma keeps_bind {A B} (m : M A) (k : A → M B) :
  keeps_adapters m → (∀ a, keeps_adapters (k a)) → keeps_adapters (bind m k).
Proof.
  intros Hm Hk w x w' (a & w1 & H1 & H2)%bind_inv.
  rewrite (Hk _ _ _ _ H2). by eapply Hm.
Qed.

Lemma keeps_deref {A} (store : World → list A) r :
  keeps_adapters (deref store r).
Proof. by intros w x w' [-> _]%deref_inv. Qed.

Create HintDb keeps discriminated.
#[local] Hint Resolve keeps_ret keeps_raise keeps_gets keeps_deref : keeps.

Ltac keeps :=
  repeat (intros;
          first [ apply keeps_bind
                | apply keeps_modify; done
                | solve [auto with keeps]
                | match goal with
                  | |- keeps_adapters (match ?x with _ => _ end) => destruct x
                  | |- keeps_adapters (if ?x then _ else _) => destruct x
                  end ]).

Lemma keeps_Entity_id e : keeps_adapters (Entity_id e).
Proof. unfold Entity_id. keeps. Qed.
Lemma keeps_Entity_model e : keeps_adapters (Entity_model e).
Proof. unfold Entity_model. keeps. Qed.
Lemma keeps_Entity_set_id e v : keeps_adapters (Entity_set_id e v).
Proof. unfold Entity_set_id. keeps. Qed.
Lemma keeps_Entity_set_model e v : keeps_adapters (Entity_set_model e v).
Proof. unfold Entity_set_model. keeps. Qed.
Lemma keeps_Model_constraints m : keeps_adapters (Model_constraints m).
Proof. unfold Model_constraints. keeps. Qed.
#[local] Hint Resolve keeps_Entity_id keeps_Entity_model keeps_Entity_set_id
  keeps_Entity_set_model keeps_Model_constraints : keeps.

Lemma keeps_constraints_getitem m k : keeps_adapters (constraints_getitem m k).
Proof. unfold constraints_getitem. keeps. Qed.
Lemma keeps_constraints_setitem m k v :
  keeps_adapters (constraints_setitem m k v).
Proof. unfold constraints_setitem. keeps. Qed.
Lemma keeps_problem_Constraint m e n kw :
  keeps_adapters (problem_Constraint m e n kw).
Proof. unfold problem_Constraint. keeps. Qed.
Lemma keeps_Row_expression c : keeps_adapters (Row_expression c).
Proof. unfold Row_expression. keeps. Qed.
Lemma keeps_Row_set_expression c v : keeps_adapters (Row_set_expression c v).
Proof. unfold Row_set_expression. keeps. Qed.
#[local] Hint Resolve keeps_constraints_getitem keeps_constraints_setitem
  keeps_problem_Constraint keeps_Row_expression keeps_Row_set_expression
  : keeps.

Lemma keeps_add_cons_vars m c : keeps_adapters (add_cons_vars m c).
Proof. unfold add_cons_vars. keeps. Qed.
Lemma keeps_self_owner self : keeps_adapters (self_owner self).
Proof. unfold self_owner. keeps. Qed.
Lemma keeps_self_kwargs self : keeps_adapters (self_kwargs self).
Proof. unfold self_kwargs. keeps. Qed.
Lemma keeps_spread explicit kw : keeps_adapters (spread explicit kw).
Proof. unfold spread. keeps. Qed.
Lemma keeps_attrname self : keeps_adapters (__attrname__ self).
Proof. unfold __attrname__. keeps. Qed.
#[local] Hint Resolve keeps_add_cons_vars keeps_self_owner keeps_self_kwargs
  keeps_spread keeps_attrname : keeps.

Lemma keeps_id self : keeps_adapters (id self).
Proof.
  unfold id, ReactionConstraint_id, MetaboliteConstraint_id,
    GenericConstraint_id. keeps.
Qed.
Lemma keeps_model self : keeps_adapters (model self).
Proof.
  unfold model, ReactionConstraint_model, MetaboliteConstraint_model,
    GenericConstraint_model. keeps.
Qed.
Lemma keeps_name self : keeps_adapters (name self).
Proof. unfold name. keeps. Qed.
#[local] Hint Resolve keeps_id keeps_model keeps_name : keeps.

Lemma keeps_make_name self : keeps_adapters (make_name self).
Proof. unfold make_name. keeps. Qed.
Lemma keeps_constraint self : keeps_adapters (constraint self).
Proof. unfold constraint. keeps. Qed.
Lemma keeps_set_constraint self v : keeps_adapters (set_constraint self v).
Proof. unfold set_constraint. keeps. Qed.
#[local] Hint Resolve keeps_make_name keeps_constraint keeps_set_constraint
  : keeps.

Lemma keeps_expr self : keeps_adapters (expr self).
Proof. unfold expr. keeps. Qed.
Lemma keeps_set_expr self v : keeps_adapters (set_expr self v).
Proof. unfold set_expr. keeps. Qed.
Lemma keeps_get_interface self e : keeps_adapters (get_interface self e).
Proof. unfold get_interface. keeps. Qed.
#[local] Hint Resolve keeps_expr keeps_set_expr keeps_get_interface : keeps.

Lemma keeps_repr self : keeps_adapters (__repr__ self).
Proof. unfold __repr__. keeps. Qed.

Lemma keeps_discard {A} (m : M A) :
  keeps_adapters m → keeps_adapters (discard m).
Proof. intros. unfold discard. keeps. Qed.

Lemma run_op_keeps op :
  match op with
  | Call_new _ _ _ _ | Set_name _ _ => True
  | _ => keeps_adapters (run_op op)
  end.
Proof.
  destruct op; cbn [run_op]; auto using keeps_discard, keeps_repr with keeps.
Qed.

(** An operation that is not an assignment to the [name] of [self] leaves
    the adapter object [self] as it is. *)
Lemma perform_keeps_adapter self op w a :
  adapters w !! self = Some a →
  renames self op = false →
  adapters (perform w op) !! self = Some a.
Proof.
  intros Ha Hop. unfold perform.
  destruct (run_op op w) as [[[] w']|] eqn:Hrun; [|done].
  pose proof (run_op_keeps op) as Hk.
  destruct op; try (by rewrite (Hk _ _ _ Hrun)); cbn [run_op renames] in *.
  - apply bind_inv in Hrun as (r & w1 & Hnew & [= <-]).
    destruct (new_Ok_inv _ _ _ _ _ _ _ Hnew) as (i & m & cs & Ht & _).
    destruct (new_post _ _ _ _ _ _ _ _ _ Ht Hnew)
      as (_ & _ & _ & _ & -> & _).
    rewrite lookup_app_l; [done|]. by eapply lookup_lt_Some.
  - apply bool_decide_eq_false in Hop.
    revert Hrun. unfold_methods.
    destruct (adapters w !! self0) as [a0|]; [|done].
    intros [= <-]. unfold_methods. by rewrite list_lookup_insert_ne.
Qed.

Lemma perform_all_keeps_adapter self ops w a :
  adapters w !! self = Some a →
  forallb (λ op, negb (renames self op)) ops = true →
  adapters (perform_all ops w) !! self = Some a.
Proof.
  revert w. induction ops as [|op ops IH]; intros w Ha Hops; [done|].
  cbn in Hops. apply andb_true_iff in Hops as [Hop Hops].
  apply negb_true_iff in Hop.
  apply IH; [|done]. by apply perform_keeps_adapter.
Qed.

(** ** The claims *)

(** C1.  Construction is idempotent.  When an adapter of class [c] has been
    constructed for identifier [i] in problem [P], a second constructor call
    of the same class that resolves to the same identifier and problem, and
    whose options do not repeat [id] or [model] where the initialiser of a
    bound class passes them on itself, returns a second adapter, leaves the
    constraints of every model and the rows as the first call left them,
    [P] then holds exactly one row under the name [prefix + i], and the
    [constraint] of both adapters is that row. *)
Theorem construction_idempotent c args1 args2 e1 e2 kw1 kw2 w i P a1 w1 :
  call_target w c args1 = Some (i, P) →
  new c args1 e1 kw1 w = Ok (a1, w1) →
  call_target w1 c args2 = Some (i, P) →
  repeats_init c kw2 = false →
  ∃ a2 w2 cs l,
    new c args2 e2 kw2 w1 = Ok (a2, w2) ∧
    a2 ≠ a1 ∧
    models w2 = models w1 ∧
    rows w2 = rows w1 ∧
    models w2 !! P = Some cs ∧
    rows_named (spec_prefix c +:+ i) cs = [l] ∧
    constraint a1 w2 = Ok (l, w2) ∧
    constraint a2 w2 = Ok (l, w2).
Proof.
  intros Ht1 Hnew1 Ht2 Hk2.
  destruct (new_bound _ _ _ _ _ _ _ _ _ Ht1 Hnew1)
    as (cs & l & Ha1 & Hr1 & Hm1 & Hl & _).
  destruct (new_post _ _ _ _ _ _ _ _ _ Ht1 Hnew1)
    as (_ & _ & -> & Hent1 & Hads1 & _).
  pose proof (new_present c args2 e2 kw2 w1 i P cs l Ht2 Hk2 Hm1 Hl)
    as Hnew2.
  destruct (new_bound _ _ _ _ _ _ _ _ _ Ht2 Hnew2)
    as (cs2 & l2 & Ha2 & Hr2 & Hm2 & Hl2 & Hc2).
  cbn [attached with_adapters models] in Hm2. simplify_eq.
  eexists _, _, cs, l. split; [exact Hnew2|].
  cbn [attached with_adapters models rows]. repeat split; try done.
  - rewrite Hads1, length_app. cbn. lia.
  - by apply rows_named_lookup.
  - erewrite constraint_eq; [| |exact Hr1|exact Hm1].
    + cbn [built_adapter _name]. by rewrite Hl.
    + cbn [attached with_adapters adapters].
      rewrite lookup_app_l; [done|]. by eapply lookup_lt_Some.
Qed.

(** C2.  The name of a constructed adapter of a concrete class is the prefix
    of the class followed by the identifier, concatenated as they are: the
    prefixes are G_, FU_, BU_, UF_, UR_, SU_, DC_ and FP_; identifier FU_x
    under ForwardDeltaGCoupling gives FU_FU_x, and identifier R1 gives
    FU_R1. *)
Theorem name_is_prefix_plus_identifier c args e kw w i P a w' :
  concrete c = true →
  call_target w c args = Some (i, P) →
  new c args e kw w = Ok (a, w') →
  name a w' = Ok (spec_prefix c +:+ i, w') ∧
  spec_prefix <$> [NegativeDeltaG; ForwardDeltaGCoupling;
                   BackwardDeltaGCoupling; ForwardDirectionCoupling;
                   BackwardDirectionCoupling; SimultaneousUse;
                   DisplacementCoupling; ForbiddenProfile]
    = ["G_"; "FU_"; "BU_"; "UF_"; "UR_"; "SU_"; "DC_"; "FP_"] ∧
  (c = ForwardDeltaGCoupling → i = "FU_x" →
   name a w' = Ok ("FU_FU_x", w')) ∧
  (c = ForwardDeltaGCoupling → i = "R1" →
   name a w' = Ok ("FU_R1", w')).
Proof.
  intros _ Ht Hnew.
  destruct (new_bound _ _ _ _ _ _ _ _ _ Ht Hnew) as (cs & l & Ha & _).
  pose proof (name_eq _ _ _ Ha) as Hn. cbn [built_adapter _name] in Hn.
  repeat split; [done|by intros -> ->..].
Qed.


(** C4, as amended.  When the derived name is already a key of the
    problem's constraints and the options do not repeat [id] or [model]
    where the initialiser of a bound class passes them on itself, the
    constructor call raises nothing, whatever the backend would accept: it
    returns an adapter whose [constraint] is the existing row, and the
    expression read through the adapter is the one that row held, not the
    one handed to the constructor. *)
Theorem duplicate_name_reuses_row c args e kw w i P cs l row :
  call_target w c args = Some (i, P) →
  repeats_init c kw = false →
  models w !! P = Some cs →
  cs !! (spec_prefix c +:+ i) = Some l →
  rows w !! l = Some row →
  ∃ a w',
    new c args e kw w = Ok (a, w') ∧
    constraint a w' = Ok (l, w') ∧
    rows w' !! l = Some row ∧
    expr a w' = Ok (row_expression row, w').
Proof.
  intros Ht Hk Hcs Hl Hrow.
  pose proof (new_present c args e kw w i P cs l Ht Hk Hcs Hl) as Hnew.
  destruct (new_bound _ _ _ _ _ _ _ _ _ Ht Hnew)
    as (cs' & l' & Ha & Hr & Hm & Hl' & Hc).
  cbn [attached with_adapters models] in Hm. simplify_eq.
  eexists _, _. split; [exact Hnew|]. split; [exact Hc|].
  split; [exact Hrow|].
  unfold expr. rewrite (bind_Ok _ _ _ _ _ Hc). by run.
Qed.

(** C5.  A reaction-bound or metabolite-bound adapter takes its identifier
    and its problem from its owner: right after construction [id] is the
    owner's identifier and [model] the owner's model, and in any later state
    of the stores the two accessors return what the owner holds then,
    whatever the attributes [_id] and [_model] of the adapter object are. *)
Theorem bound_adapter_delegates_to_owner c o e kw w a w' :
  binding c = ByReaction ∨ binding c = ByMetabolite →
  new c (OfOwner o) e kw w = Ok (a, w') →
  ∃ x ad,
    entities w !! o = Some x ∧
    entities w' !! o = Some x ∧
    adapters w' !! a = Some ad ∧ cls ad = c ∧ owner ad = Some o ∧
    id a w' = Ok (ent_id x, w') ∧
    model a w' = Ok (ent_model x, w') ∧
    ∀ w2 ad2 x2,
      adapters w2 !! a = Some ad2 → cls ad2 = c → owner ad2 = Some o →
      entities w2 !! o = Some x2 →
      id a w2 = Ok (ent_id x2, w2) ∧ model a w2 = Ok (ent_model x2, w2).
Proof.
  clear Expr_repr camel2underscores. intros Hb Hnew.
  destruct (new_Ok_inv _ _ _ _ _ _ _ Hnew) as (i & m & cs & Ht & _).
  destruct (new_bound _ _ _ _ _ _ _ _ _ Ht Hnew)
    as (cs' & l & Ha & Hr & _).
  destruct (new_post _ _ _ _ _ _ _ _ _ Ht Hnew) as (_ & _ & _ & Hent & _).
  assert (∃ x, entities w !! o = Some x ∧ ent_id x = i ∧
               ent_model x = Some m) as (x & Hx & <- & Hm).
  { unfold call_target in Ht.
    destruct Hb as [Hb|Hb]; rewrite Hb in Ht;
      destruct (entities w !! o) as [x|]; try done;
      destruct (ent_model x) eqn:?; naive_solver. }
  exists x, (built_adapter c (Some o) (ent_id x) (Some m) kw).
  split; [done|]. split; [by rewrite Hent|]. split; [done|].
  split; [done|]. split; [done|].
  split; [by apply (id_eq _ _ _ _ _ Ha Hr)|].
  split; [rewrite Hm; by apply (model_eq _ _ _ _ _ Ha Hr)|].
  intros w2 ad2 x2 Ha2 Hc2 Ho2 Hx2.
  assert (resolves w2 ad2 (ent_id x2) (ent_model x2)) as Hr2.
  { unfold resolves. rewrite Hc2. destruct Hb as [-> | ->]; eauto 10. }
  split; [by apply (id_eq _ _ _ _ _ Ha2 Hr2)|by apply (model_eq _ _ _ _ _ Ha2 Hr2)].
Qed.

(** C6.  Writing an expression through an adapter and reading it back
    returns that expression, provided the backend stores it as handed over.
    The write goes to the row in the rows store and nowhere else: the
    adapter objects, the constraints and the entities stay as they are, and
    any other adapter whose [constraint] is the same row reads the new
    expression too. *)
Theorem expression_round_trip self w l row E :
  constraint self w = Ok (l, w) →
  rows w !! l = Some row →
  backend_stores E = E →
  expr self w = Ok (row_expression row, w) ∧
  ∃ w',
    set_expr self E w = Ok (tt, w') ∧
    expr self w' = Ok (E, w') ∧
    adapters w' = adapters w ∧
    models w' = models w ∧
    entities w' = entities w ∧
    rows w' = <[l := {| row_name := row_name row; row_expression := E;
                        row_options := row_options row |}]> (rows w) ∧
    ∀ other, constraint other w = Ok (l, w) → expr other w' = Ok (E, w').
Proof.
  intros Hc Hrow HE.
  assert (l < length (rows w)) as Hlt by by eapply lookup_lt_Some.
  split.
  { unfold expr. rewrite (bind_Ok _ _ _ _ _ Hc). by run. }
  eexists. split.
  { unfold set_expr. rewrite (bind_Ok _ _ _ _ _ Hc). run. reflexivity. }
  rewrite HE.
  assert (∀ other, constraint other w = Ok (l, w) →
    expr other
      (with_rows (<[l := {| row_name := row_name row; row_expression := E;
                            row_options := row_options row |}]> (rows w)) w)
    = Ok (E, with_rows (<[l := {| row_name := row_name row;
                                     row_expression := E;
                                     row_options := row_options row |}]>
                           (rows w)) w)) as Hall.
  { intros other (a & i & m & cs & _ & Ha & Hr & Hm & Hl)%constraint_inv.
    unfold expr. erewrite bind_Ok.
    2:{ erewrite constraint_eq; [|exact Ha|exact Hr|exact Hm].
        by rewrite Hl. }
    unfold_methods. by rewrite list_lookup_insert_eq. }
  split; [by apply Hall|]. by repeat split.
Qed.

(** C7.  The name of an adapter is computed once, by the constructor, from
    the identifier and the prefix of the class, and no later operation other
    than an assignment to the [name] of that adapter changes it: not the
    accessors and methods of this or any other adapter, not another
    constructor call, and not a change of the owner's identifier or
    model. *)
Theorem name_fixed_after_construction c args e kw w i P self w1 ops :
  call_target w c args = Some (i, P) →
  new c args e kw w = Ok (self, w1) →
  forallb (λ op, negb (renames self op)) ops = true →
  name self w1 = Ok (spec_prefix c +:+ i, w1) ∧
  name self (perform_all ops w1)
    = Ok (spec_prefix c +:+ i, perform_all ops w1).
Proof.
  intros Ht Hnew Hops.
  destruct (new_bound _ _ _ _ _ _ _ _ _ Ht Hnew) as (cs & l & Ha & _).
  split; [by rewrite (name_eq _ _ _ Ha)|].
  by rewrite (name_eq _ _ _ (perform_all_keeps_adapter _ _ _ _ Ha Hops)).
Qed.

(** C8.  ForbiddenProfile is bound to a problem, not to an entity: its
    constructor takes the model and the identifier from the caller, the
    adapter it returns has no owner, its name is FP_ followed by the
    identifier (FP_profile_1 for profile_1), its row is registered in the
    model under that name, and the call does the same whatever reactions
    and metabolites exist. *)
Theorem forbidden_profile_is_problem_level M e kw w i a w' :
  new ForbiddenProfile (OfModel (Some M) i) e kw w = Ok (a, w') →
  name a w' = Ok ("FP_" +:+ i, w') ∧
  (i = "profile_1" → name a w' = Ok ("FP_profile_1", w')) ∧
  id a w' = Ok (i, w') ∧
  model a w' = Ok (Some M, w') ∧
  (∃ ad, adapters w' !! a = Some ad ∧ owner ad = None) ∧
  (∃ cs l, models w' !! M = Some cs ∧ cs !! ("FP_" +:+ i) = Some l ∧
           constraint a w' = Ok (l, w')) ∧
  (∀ es, new ForbiddenProfile (OfModel (Some M) i) e kw (with_entities es w)
         = Ok (a, with_entities es w')).
Proof.
  intros Hnew.
  assert (∀ w0, call_target w0 ForbiddenProfile (OfModel (Some M) i)
                = Some (i, M)) as Ht by done.
  destruct (new_bound _ _ _ _ _ _ _ _ _ (Ht w) Hnew)
    as (cs & l & Ha & Hr & Hm & Hl & Hc).
  pose proof (name_eq _ _ _ Ha) as Hn. cbn [built_adapter _name] in Hn.
  split; [done|]. split; [by intros ->|].
  split; [by apply (id_eq _ _ _ _ _ Ha Hr)|].
  split; [by apply (model_eq _ _ _ _ _ Ha Hr)|].
  split; [by eexists|]. split; [by eexists _, _|].
  intros es. rewrite (new_eq _ _ _ _ _ _ _ (Ht w)) in Hnew.
  rewrite (new_eq _ _ _ _ _ _ _ (Ht (with_entities es w))).
  revert Hnew. unfold outcome. cbn [repeats_init binding with_entities models].
  destruct (models w !! M) as [cs0|]; [|done].
  destruct (cs0 !! _); [by intros [= <- <-]|].
  destruct (repeats_row kw); [done|].
  destruct (backend_accepts _ _ _); [|done]. by intros [= <- <-].
Qed.

(** C9.  The keyword options reach the backend only when the row is
    created.  When the derived name is present, the constructor call
    returns whatever the options, provided they do not repeat [id] or
    [model] where the initialiser of a bound class passes them on itself
    (and whatever the backend would say to them, even if they repeat a
    keyword of the backend call), the rows, and so the options of the
    existing row, are what they were, and the options handed over only end
    in the adapter's own [kwargs]; when the name is absent, the row the call
    creates holds the options. *)
Theorem options_reach_only_a_new_row c args e kw w i P cs :
  call_target w c args = Some (i, P) →
  models w !! P = Some cs →
  (∀ l row,
     repeats_init c kw = false →
     cs !! (spec_prefix c +:+ i) = Some l →
     rows w !! l = Some row →
     ∃ a w' ad,
       new c args e kw w = Ok (a, w') ∧
       rows w' = rows w ∧
       models w' = models w ∧
       constraint a w' = Ok (l, w') ∧
       rows w' !! l = Some row ∧
       adapters w' !! a = Some ad ∧ kwargs ad = kw) ∧
  (cs !! (spec_prefix c +:+ i) = None →
   ∀ a w',
     new c args e kw w = Ok (a, w') →
     ∃ l row,
       constraint a w' = Ok (l, w') ∧
       rows w' !! l = Some row ∧
       row_options row = kw).
Proof.
  intros Ht Hcs. split.
  - intros l row Hk Hl Hrow.
    pose proof (new_present c args e kw w i P cs l Ht Hk Hcs Hl) as Hnew.
    destruct (new_bound _ _ _ _ _ _ _ _ _ Ht Hnew)
      as (cs' & l' & Ha & Hr & Hm & Hl' & Hc).
    cbn [attached with_adapters models] in Hm. simplify_eq.
    eexists _, _, _. split; [exact Hnew|]. by repeat split.
  - intros Hn a w' Hnew.
    destruct (new_bound _ _ _ _ _ _ _ _ _ Ht Hnew)
      as (cs' & l' & Ha & Hr & Hm & Hl' & Hc).
    destruct (new_post _ _ _ _ _ _ _ _ _ Ht Hnew)
      as (cs0 & l & _ & _ & _ & Hcs0 & Hmod & [[Hl _]|(_ & _ & -> & Hrows)]);
      simplify_eq.
    rewrite Hmod in Hm.
    rewrite list_lookup_insert_eq in Hm by by eapply lookup_lt_Some.
    simplify_eq. rewrite lookup_insert_eq in Hl'. simplify_eq.
    eexists _, _. split; [exact Hc|].
    split; [rewrite Hrows; apply lookup_snoc|done].
Qed.

(** C10.  Every read of [constraint], and so of [expr], looks the current
    name up in the constraints of the problem.  After [name] has been
    assigned a new value, which touches neither the constraints nor the
    rows, [constraint] is the row the problem holds under the new value, and
    [constraint] and the reads and writes of [expr] raise the mapping's
    missing-key error when it holds none. *)
Theorem constraint_follows_current_name self w m cs n' :
  model self w = Ok (Some m, w) →
  models w !! m = Some cs →
  ∃ w',
    set_name self n' w = Ok (tt, w') ∧
    name self w' = Ok (n', w') ∧
    models w' = models w ∧ rows w' = rows w ∧ entities w' = entities w ∧
    (∀ l, cs !! n' = Some l →
          constraint self w' = Ok (l, w') ∧
          expr self w' = Row_expression l w') ∧
    (cs !! n' = None →
     constraint self w' = Raise (KeyError n') ∧
     expr self w' = Raise (KeyError n') ∧
     ∀ v, set_expr self v w' = Raise (KeyError n')).
Proof.
  intros (a & i & _ & Ha & Hr)%model_inv Hcs.
  assert (self < length (adapters w)) as Hlt by by eapply lookup_lt_Some.
  eexists. split; [by run|].
  set (a' := {| cls := cls a; owner := owner a; _id := _id a;
                _model := _model a; kwargs := kwargs a; _name := n' |}).
  set (w' := with_adapters (<[self := a']> (adapters w)) w).
  assert (adapters w' !! self = Some a') as Ha'
    by by apply list_lookup_insert_eq.
  assert (resolves w' a' i (Some m)) as Hr' by done.
  assert (models w' !! m = Some cs) as Hcs' by done.
  pose proof (constraint_eq _ _ _ _ _ _ Ha' Hr' Hcs') as Hc.
  cbn [_name a'] in Hc.
  split; [by rewrite (name_eq _ _ _ Ha')|]. do 3 (split; [done|]). split.
  - intros l Hl. rewrite Hl in Hc. split; [done|].
    unfold expr. by rewrite (bind_Ok _ _ _ _ _ Hc).
  - intros Hn. rewrite Hn in Hc. split; [done|].
    unfold expr, set_expr. split; [|intros v]; by rewrite (bind_Raise _ _ _ _ Hc).
Qed.

(** ** Further properties of the module *)

(** *** The accessors only read *)

Lemma reads_ret {A} (a : A) : reads_only (ret a).
Proof. by intros w x w' [= _ <-]. Qed.

Lemma reads_raise {A} e : reads_only (raise (A:=A) e).
Proof. by intros w x w'. Qed.

Lemma reads_bind {A B} (m : M A) (k : A → M B) :
  reads_only m → (∀ a, reads_only (k a)) → reads_only (bind m k).
Proof.
  intros Hm Hk w x w' (a & w1 & H1 & H2)%bind_inv.
  apply Hm in H1 as ->. by eapply Hk.
Qed.

Lemma reads_deref {A} (store : World → list A) r : reads_only (deref store r).
Proof. by intros w x w' [-> _]%deref_inv. Qed.

Create HintDb reads discriminated.
#[local] Hint Resolve reads_ret reads_raise reads_deref : reads.

Ltac reads :=
  repeat (intros;
          first [ solve [auto with reads]
                | apply reads_bind
                | match goal with
                  | |- reads_only (match ?x with _ => _ end) => destruct x
                  end ]).

Lemma reads_Entity_id e : reads_only (Entity_id e).
Proof. unfold Entity_id. reads. Qed.
Lemma reads_Entity_model e : reads_only (Entity_model e).
Proof. unfold Entity_model. reads. Qed.
Lemma reads_Model_constraints m : reads_only (Model_constraints m).
Proof. unfold Model_constraints. reads. Qed.
Lemma reads_self_owner self : reads_only (self_owner self).
Proof. unfold self_owner. reads. Qed.
Lemma reads_Row_expression c : reads_only (Row_expression c).
Proof. unfold Row_expression. reads. Qed.
#[local] Hint Resolve reads_Entity_id reads_Entity_model
  reads_Model_constraints reads_self_owner reads_Row_expression : reads.

Lemma reads_constraints_getitem m k : reads_only (constraints_getitem m k).
Proof. unfold constraints_getitem. reads. Qed.
Lemma reads_id self : reads_only (id self).
Proof.
  unfold id, ReactionConstraint_id, MetaboliteConstraint_id,
    GenericConstraint_id. reads.
Qed.
Lemma reads_model self : reads_only (model self).
Proof.
  unfold model, ReactionConstraint_model, MetaboliteConstraint_model,
    GenericConstraint_model. reads.
Qed.
Lemma reads_name self : reads_only (name self).
Proof. unfold name. reads. Qed.
#[local] Hint Resolve reads_constraints_getitem reads_id reads_model
  reads_name : reads.

Lemma reads_constraint self : reads_only (constraint self).
Proof. unfold constraint. reads. Qed.
Lemma reads_make_name self : reads_only (make_name self).
Proof. unfold make_name. reads. Qed.
#[local] Hint Resolve reads_constraint reads_make_name : reads.

Lemma reads_expr self : reads_only (expr self).
Proof. unfold expr. reads. Qed.
#[local] Hint Resolve reads_expr : reads.

(** X1.  The accessors [__attrname__], [id], [model], [name],
    [constraint] and [expr], and the methods [make_name] and [__repr__],
    only read: when one of them returns, the stores are what they were. *)
Theorem accessors_only_read self :
  reads_only (__attrname__ self) ∧ reads_only (id self) ∧
  reads_only (model self) ∧ reads_only (name self) ∧
  reads_only (constraint self) ∧ reads_only (expr self) ∧
  reads_only (make_name self) ∧ reads_only (__repr__ self).
Proof.
  repeat split; auto with reads.
  - unfold __attrname__. reads.
  - unfold __repr__. reads.
Qed.

(** *** When a constructor call returns, and what it raises *)

(** X2.  A constructor call returns exactly when its arguments fit the
    class, the owner (if any) and the model exist, the options do not
    repeat [id] or [model] where the initialiser of a bound class passes
    them on itself, and the derived name is already registered in the model
    or else the options repeat neither [expression] nor [name] and the
    backend accepts the new row. *)
Theorem new_returns_iff c args e kw w :
  (∃ a w', new c args e kw w = Ok (a, w')) ↔
  ∃ i m cs,
    call_target w c args = Some (i, m) ∧
    models w !! m = Some cs ∧
    repeats_init c kw = false ∧
    (is_Some (cs !! (spec_prefix c +:+ i)) ∨
     repeats_row kw = false ∧
     backend_accepts e (spec_prefix c +:+ i) kw = true).
Proof.
  split.
  - intros (a & w' & Hnew).
    destruct (new_Ok_inv _ _ _ _ _ _ _ Hnew) as (i & m & cs & Ht & Hcs).
    exists i, m, cs. split; [done|]. split; [done|].
    rewrite (new_eq _ _ _ _ _ _ _ Ht) in Hnew. unfold outcome in Hnew.
    rewrite Hcs in Hnew.
    destruct (repeats_init c kw); [done|]. split; [done|].
    destruct (cs !! _) as [l|]; [by left; eexists|].
    destruct (repeats_row kw); [done|].
    destruct (backend_accepts _ _ _); [by right|done].
  - intros (i & m & cs & Ht & Hcs & Hk & Hor).
    rewrite (new_eq _ _ _ _ _ _ _ Ht). unfold outcome. rewrite Hk, Hcs.
    destruct (cs !! _) as [l|] eqn:Hl; [by eexists _, _|].
    destruct Hor as [[l Hl']|[Hrow Hacc]]; [done|].
    rewrite Hrow, Hacc. by eexists _, _.
Qed.

(** X3.  What a constructor call with a fitting target raises, in this
    order: TypeError when the options repeat [id] or [model] where the
    initialiser of a bound class passes them on itself, whatever the model
    holds and the backend would say; otherwise, when the derived name is
    not registered, TypeError when the options repeat [expression] or
    [name], without the backend being asked; otherwise the backend's error
    when the backend rejects the row. *)
Theorem construction_raises_in_order c args e kw w i m cs :
  call_target w c args = Some (i, m) →
  models w !! m = Some cs →
  (repeats_init c kw = true → new c args e kw w = Raise TypeError) ∧
  (repeats_init c kw = false →
   cs !! (spec_prefix c +:+ i) = None →
   repeats_row kw = true →
   new c args e kw w = Raise TypeError) ∧
  (repeats_init c kw = false →
   cs !! (spec_prefix c +:+ i) = None →
   repeats_row kw = false →
   backend_accepts e (spec_prefix c +:+ i) kw = false →
   new c args e kw w = Raise BackendError).
Proof.
  intros Ht Hcs. rewrite (new_eq _ _ _ _ _ _ _ Ht). unfold outcome.
  rewrite Hcs. split; [|split].
  - by intros ->.
  - by intros -> -> ->.
  - by intros -> -> -> ->.
Qed.

(** X4.  A constructor call of a bound class for an owner that belongs to
    no model raises TypeError when the options repeat [id] or [model], and
    AttributeError otherwise; a constructor call of an unbound class with
    [None] for the model raises AttributeError.  (The first thing
    [get_interface] does is to read the constraints of the model.) *)
Theorem construction_without_model_raises c e kw w :
  (∀ o x, binding c ≠ Unbound → entities w !! o = Some x →
          ent_model x = None →
          new c (OfOwner o) e kw w
          = if repeats_init c kw then Raise TypeError
            else Raise AttributeError) ∧
  (∀ i, binding c = Unbound →
        new c (OfModel None i) e kw w = Raise AttributeError).
Proof.
  split.
  - intros o x Hb Hx Hm. unfold new, repeats_init.
    destruct (binding c) eqn:Hb'; [| |done].
    + rewrite (ReactionConstraint_init_eq _ _ _ _ _ _ Hb' Hx), Hm.
      by destruct (existsb _ _).
    + rewrite (MetaboliteConstraint_init_eq _ _ _ _ _ _ Hb' Hx), Hm.
      by destruct (existsb _ _).
  - intros i Hb. unfold new. rewrite Hb.
    assert (GenericConstraint_init c None i e None kw w
            = outcome c None i e None kw w) as Heq.
    { apply GenericConstraint_init_eq. unfold resolves; cbn. by rewrite Hb. }
    destruct c; try done; unfold ForbiddenProfile_init; by rewrite Heq.
Qed.

(** *** Which names can coincide *)

Lemma make_name_inv self w n w' :
  make_name self w = Ok (n, w') →
  ∃ a i, w' = w ∧ adapters w !! self = Some a ∧
         id self w = Ok (i, w) ∧ n = spec_prefix (cls a) +:+ i.
Proof.
  unfold make_name. intros (a & w1 & [-> Ha]%deref_inv & H)%bind_inv.
  apply bind_inv in H as (i & w2 & Hid & H).
  pose proof (reads_id _ _ _ _ Hid) as ->.
  injection H as <- <-. exists a, i. by rewrite make_name_prefix.
Qed.

Lemma make_name_eq self w a i m :
  adapters w !! self = Some a → resolves w a i m →
  make_name self w = Ok (spec_prefix (cls a) +:+ i, w).
Proof.
  intros Ha Hr. unfold make_name.
  rewrite (bind_Ok _ _ _ _ _ (deref_Some _ _ _ _ Ha)).
  rewrite (bind_Ok _ _ _ _ _ (id_eq _ _ _ _ _ Ha Hr)).
  unfold ret. by rewrite make_name_prefix.
Qed.

Lemma concrete_prefix_inj c1 c2 (i1 i2 : string) :
  concrete c1 = true → concrete c2 = true →
  spec_prefix c1 +:+ i1 = spec_prefix c2 +:+ i2 → c1 = c2 ∧ i1 = i2.
Proof.
  destruct c1; try done; destruct c2; try done; cbn; intros _ _ H;
    by simplify_eq.
Qed.

(** X5.  Among the classes that prefix the identifier, the name tells the
    class and the identifier: when [make_name] gives the same name for two
    adapters of such classes, they are of the same class and have the same
    identifier.  (No prefix begins a name built with another one.) *)
Theorem prefixed_names_tell_class_and_identifier self1 self2 w a1 a2 n :
  adapters w !! self1 = Some a1 →
  adapters w !! self2 = Some a2 →
  concrete (cls a1) = true →
  concrete (cls a2) = true →
  make_name self1 w = Ok (n, w) →
  make_name self2 w = Ok (n, w) →
  cls a1 = cls a2 ∧
  ∃ i, id self1 w = Ok (i, w) ∧ id self2 w = Ok (i, w).
Proof.
  intros Ha1 Ha2 Hc1 Hc2.
  intros (a1' & i1 & _ & Ha1' & Hi1 & ->)%make_name_inv.
  intros (a2' & i2 & _ & Ha2' & Hi2 & Heq)%make_name_inv.
  simplify_eq.
  destruct (concrete_prefix_inj _ _ _ _ Hc1 Hc2 Heq) as [Hcls ->].
  split; [done|]. by exists i2.
Qed.

(** X6.  The existing row is found by name alone.  A second constructor
    call of any class whose derived name equals the name of an adapter
    already constructed in the same model, as happens for a class that does
    not prefix the identifier when the identifier spells that name, and
    whose options do not repeat [id] or [model] where the initialiser of a
    bound class passes them on itself, creates no row: both adapters then
    share the first one's row. *)
Theorem equal_names_share_the_row c1 c2 args1 args2 e1 e2 kw1 kw2 w i1 i2 P
    a1 w1 :
  call_target w c1 args1 = Some (i1, P) →
  new c1 args1 e1 kw1 w = Ok (a1, w1) →
  call_target w1 c2 args2 = Some (i2, P) →
  repeats_init c2 kw2 = false →
  spec_prefix c2 +:+ i2 = spec_prefix c1 +:+ i1 →
  ∃ a2 w2 l,
    new c2 args2 e2 kw2 w1 = Ok (a2, w2) ∧
    models w2 = models w1 ∧
    rows w2 = rows w1 ∧
    name a1 w2 = name a2 w2 ∧
    constraint a1 w2 = Ok (l, w2) ∧
    constraint a2 w2 = Ok (l, w2).
Proof.
  intros Ht1 Hnew1 Ht2 Hk2 Hname.
  destruct (new_bound _ _ _ _ _ _ _ _ _ Ht1 Hnew1)
    as (cs & l & Ha1 & Hr1 & Hm1 & Hl & _).
  destruct (new_post _ _ _ _ _ _ _ _ _ Ht1 Hnew1)
    as (_ & _ & -> & Hent1 & Hads1 & _).
  assert (cs !! (spec_prefix c2 +:+ i2) = Some l) as Hl2' by by rewrite Hname.
  pose proof (new_present c2 args2 e2 kw2 w1 i2 P cs l Ht2 Hk2 Hm1 Hl2')
    as Hnew2.
  destruct (new_bound _ _ _ _ _ _ _ _ _ Ht2 Hnew2)
    as (cs2 & l2 & Ha2 & Hr2 & Hm2 & Hl2 & Hc2).
  cbn [attached with_adapters models] in Hm2. rewrite Hname in Hl2.
  simplify_eq.
  assert (adapters (attached c2 (call_owner args2) i2 P kw2 w1)
            !! length (adapters w)
          = Some (built_adapter c1 (call_owner args1) i1 (Some P) kw1))
    as Ha1'.
  { cbn [attached with_adapters adapters].
    rewrite lookup_app_l; [done|]. by eapply lookup_lt_Some. }
  eexists _, _, l. split; [exact Hnew2|].
  split; [done|]. split; [done|]. split; [|split; [|done]].
  - rewrite (name_eq _ _ _ Ha1'), (name_eq _ _ _ Ha2).
    cbn [built_adapter _name]. by rewrite Hname.
  - erewrite constraint_eq; [|exact Ha1'|exact Hr1|exact Hm1].
    cbn [built_adapter _name]. by rewrite Hl.
Qed.

(** *** Rebinding and re-running *)

(** X8.  [get_interface] on an adapter whose name is registered changes
    nothing, whatever the expression: it assigns to [constraint] the row it
    has just found under that name. *)
Theorem get_interface_on_registered_changes_nothing self w l e :
  constraint self w = Ok (l, w) →
  get_interface self e w = Ok (tt, w).
Proof.
  intros (a & i & m & cs & _ & Ha & Hr & Hm & Hl)%constraint_inv.
  unfold get_interface.
  rewrite (bind_Ok _ _ _ _ _ (name_eq _ _ _ Ha)).
  rewrite (bind_Ok _ _ _ _ _ (model_eq _ _ _ _ _ Ha Hr)).
  rewrite (bind_Ok (Model_constraints (Some m)) _ w cs w) by (by run).
  rewrite Hl. unfold set_constraint.
  rewrite (bind_Ok _ _ _ _ _ (model_eq _ _ _ _ _ Ha Hr)).
  rewrite (bind_Ok _ _ _ _ _ (name_eq _ _ _ Ha)).
  run. rewrite insert_id by done. rewrite list_insert_id by done.
  by destruct w.
Qed.

(** *** The owner changes after the construction *)

Lemma new_of_owner c o e kw w a w1 x :
  binding c ≠ Unbound →
  entities w !! o = Some x →
  new c (OfOwner o) e kw w = Ok (a, w1) →
  ∃ m cs l,
    ent_model x = Some m ∧
    entities w1 = entities w ∧
    adapters w1 !! a = Some (built_adapter c (Some o) (ent_id x) (Some m) kw) ∧
    models w1 !! m = Some cs ∧
    cs !! (spec_prefix c +:+ ent_id x) = Some l.
Proof.
  intros Hb Hx Hnew.
  destruct (new_Ok_inv _ _ _ _ _ _ _ Hnew) as (i & m & cs0 & Ht & _).
  destruct (new_bound _ _ _ _ _ _ _ _ _ Ht Hnew)
    as (cs & l & Ha & _ & Hm & Hl & _).
  destruct (new_post _ _ _ _ _ _ _ _ _ Ht Hnew) as (_ & _ & _ & Hent & _).
  unfold call_target in Ht. rewrite Hx in Ht.
  destruct (binding c); [| |done];
    (destruct (ent_model x) as [m'|] eqn:Hm'; [|done]); simplify_eq;
    by exists m, cs, l.
Qed.

Lemma resolves_owner (w : World) (ad : Adapter) o x :
  binding (cls ad) ≠ Unbound → owner ad = Some o →
  entities w !! o = Some x →
  resolves w ad (ent_id x) (ent_model x).
Proof.
  intros Hb Ho Hx. unfold resolves.
  destruct (binding (cls ad)); [..|done]; eauto 10.
Qed.

(** X9.  When the owner is renamed after the construction, [id] and
    [make_name] of a bound adapter follow the new identifier, while [name]
    keeps the value computed by the constructor and [constraint] is still
    the row registered under it. *)
Theorem renamed_owner_leaves_name_behind c o e kw w a w1 x v :
  binding c ≠ Unbound →
  entities w !! o = Some x →
  new c (OfOwner o) e kw w = Ok (a, w1) →
  let w2 := perform w1 (Rename_entity o v) in
  ∃ l,
    constraint a w1 = Ok (l, w1) ∧
    id a w2 = Ok (v, w2) ∧
    make_name a w2 = Ok (spec_prefix c +:+ v, w2) ∧
    name a w2 = Ok (spec_prefix c +:+ ent_id x, w2) ∧
    constraint a w2 = Ok (l, w2).
Proof.
  intros Hb Hx Hnew.
  destruct (new_of_owner _ _ _ _ _ _ _ _ Hb Hx Hnew)
    as (m & cs & l & Hxm & Hent & Ha & Hm & Hl).
  assert (entities w1 !! o = Some x) as Hx1 by by rewrite Hent.
  assert (o < length (entities w1)) as Hlt by by eapply lookup_lt_Some.
  set (ad := built_adapter c (Some o) (ent_id x) (Some m) kw) in *.
  assert (perform w1 (Rename_entity o v)
          = with_entities (<[o := {| ent_id := v; ent_model := ent_model x |}]>
                             (entities w1)) w1) as ->.
  { unfold perform, run_op. by run. }
  set (w2 := with_entities _ w1). cbv zeta.
  assert (adapters w2 !! a = Some ad) as Ha2 by done.
  assert (resolves w1 ad (ent_id x) (ent_model x)) as Hr1
    by by apply (resolves_owner w1 ad o x).
  assert (resolves w2 ad v (Some m)) as Hr2.
  { rewrite <- Hxm.
    apply (resolves_owner w2 ad o {| ent_id := v; ent_model := ent_model x |});
      [done..|]. by apply list_lookup_insert_eq. }
  rewrite Hxm in Hr1.
  exists l. split; [|split; [|split; [|split]]].
  - rewrite (constraint_eq _ _ _ _ _ _ Ha Hr1 Hm). cbn. by rewrite Hl.
  - by apply (id_eq _ _ _ _ _ Ha2 Hr2).
  - by apply (make_name_eq _ _ _ _ _ Ha2 Hr2).
  - by apply (name_eq _ _ _ Ha2).
  - rewrite (constraint_eq a w2 ad v m cs Ha2 Hr2 Hm). cbn. by rewrite Hl.
Qed.

(** X10.  [model] of a bound adapter is read from the owner at every
    access.  When the owner is moved to another model after the
    construction, [constraint] looks the unchanged name up in the
    constraints of that model: it is the row that model holds under the
    name, or the missing-key error when it holds none.  When the owner is
    taken out of its model, [constraint] and an assignment to [expr] raise
    AttributeError. *)
Theorem moved_owner_redirects_the_lookup c o e kw w a w1 x :
  binding c ≠ Unbound →
  entities w !! o = Some x →
  new c (OfOwner o) e kw w = Ok (a, w1) →
  (∀ m2 cs2,
     models w1 !! m2 = Some cs2 →
     let w2 := perform w1 (Move_entity o (Some m2)) in
     model a w2 = Ok (Some m2, w2) ∧
     name a w2 = Ok (spec_prefix c +:+ ent_id x, w2) ∧
     constraint a w2 =
       match cs2 !! (spec_prefix c +:+ ent_id x) with
       | Some l => Ok (l, w2)
       | None => Raise (KeyError (spec_prefix c +:+ ent_id x))
       end) ∧
  (let w2 := perform w1 (Move_entity o None) in
   model a w2 = Ok (None, w2) ∧
   constraint a w2 = Raise AttributeError ∧
   ∀ v, set_expr a v w2 = Raise AttributeError).
Proof.
  intros Hb Hx Hnew.
  destruct (new_of_owner _ _ _ _ _ _ _ _ Hb Hx Hnew)
    as (m & cs & l & Hxm & Hent & Ha & Hm & Hl).
  assert (entities w1 !! o = Some x) as Hx1 by by rewrite Hent.
  assert (o < length (entities w1)) as Hlt by by eapply lookup_lt_Some.
  set (ad := built_adapter c (Some o) (ent_id x) (Some m) kw) in *.
  assert (∀ m', perform w1 (Move_entity o m')
          = with_entities (<[o := {| ent_id := ent_id x; ent_model := m' |}]>
                             (entities w1)) w1) as Hperform.
  { intros m'. unfold perform, run_op. by run. }
  assert (∀ m', resolves
            (with_entities (<[o := {| ent_id := ent_id x; ent_model := m' |}]>
                              (entities w1)) w1) ad (ent_id x) m') as Hr.
  { intros m'.
    apply (resolves_owner _ ad o {| ent_id := ent_id x; ent_model := m' |});
      [done..|]. by apply list_lookup_insert_eq. }
  split.
  - intros m2 cs2 Hm2. rewrite Hperform. cbv zeta.
    set (w2 := with_entities _ w1).
    assert (adapters w2 !! a = Some ad) as Ha2 by done.
    split; [by apply (model_eq _ _ _ _ _ Ha2 (Hr _))|].
    split; [by apply (name_eq _ _ _ Ha2)|].
    by rewrite (constraint_eq a w2 ad _ m2 cs2 Ha2 (Hr _) Hm2).
  - rewrite Hperform. cbv zeta. set (w2 := with_entities _ w1).
    assert (adapters w2 !! a = Some ad) as Ha2 by done.
    assert (constraint a w2 = Raise AttributeError) as Hc.
    { unfold constraint.
      rewrite (bind_Ok _ _ _ _ _ (model_eq _ _ _ _ _ Ha2 (Hr None))).
      by rewrite (bind_Ok _ _ _ _ _ (name_eq _ _ _ Ha2)). }
    split; [by apply (model_eq _ _ _ _ _ Ha2 (Hr _))|]. split; [done|].
    intros v. unfold set_expr. by rewrite (bind_Raise _ _ _ _ Hc).
Qed.

(** *** Consistency of the stores *)

Lemma consistent_lookup w :
  consistent w ↔
  ∀ m cs n l, models w !! m = Some cs → cs !! n = Some l →
              row_name <$> rows w !! l = Some n.
Proof.
  unfold consistent. rewrite Forall_lookup. split.
  - intros H m cs n l Hm Hl. exact (H m cs Hm n l Hl).
  - intros H m cs Hm n l Hl. by eapply H.
Qed.

Lemma consistent_same w w' :
  models w' = models w → rows w' = rows w → consistent w → consistent w'.
Proof. unfold consistent. by intros -> ->. Qed.

Lemma consistent_register w w' m cs n l row :
  models w !! m = Some cs →
  models w' = <[m := <[n := l]> cs]> (models w) →
  rows w' = rows w ++ [row] →
  l = length (rows w) →
  row_name row = n →
  consistent w → consistent w'.
Proof.
  intros Hm Hmodels Hrows -> Hrow. rewrite !consistent_lookup.
  intros Hc m' cs' n' l'. rewrite Hmodels, Hrows.
  assert (m < length (models w)) as Hlt by by eapply lookup_lt_Some.
  destruct (decide (m' = m)) as [->|Hne].
  - rewrite list_lookup_insert_eq by done. intros [= <-].
    destruct (decide (n' = n)) as [->|Hn].
    + rewrite lookup_insert_eq. intros [= <-].
      by rewrite lookup_snoc; cbn; rewrite Hrow.
    + rewrite lookup_insert_ne by done. intros Hl'.
      specialize (Hc _ _ _ _ Hm Hl').
      destruct (rows w !! l') as [r|] eqn:Hr; [|done].
      by rewrite (lookup_app_l_Some _ _ _ _ Hr).
  - rewrite list_lookup_insert_ne by done. intros Hm' Hl'.
    specialize (Hc _ _ _ _ Hm' Hl').
    destruct (rows w !! l') as [r|] eqn:Hr; [|done].
    by rewrite (lookup_app_l_Some _ _ _ _ Hr).
Qed.

Lemma consistent_update_row w w' l row row' :
  rows w !! l = Some row →
  row_name row' = row_name row →
  models w' = models w →
  rows w' = <[l := row']> (rows w) →
  consistent w → consistent w'.
Proof.
  intros Hl Hname Hmodels Hrows. rewrite !consistent_lookup.
  intros Hc m cs n l'. rewrite Hmodels, Hrows. intros Hm Hn.
  specialize (Hc _ _ _ _ Hm Hn).
  destruct (decide (l' = l)) as [->|Hne].
  - rewrite list_lookup_insert_eq by by eapply lookup_lt_Some.
    rewrite Hl in Hc. cbn in *. congruence.
  - by rewrite list_lookup_insert_ne.
Qed.

Lemma consistent_new c args e kw w a w' :
  new c args e kw w = Ok (a, w') → consistent w → consistent w'.
Proof.
  intros Hnew.
  destruct (new_Ok_inv _ _ _ _ _ _ _ Hnew) as (i & m & cs0 & Ht & _).
  destruct (new_post _ _ _ _ _ _ _ _ _ Ht Hnew)
    as (cs & l & _ & _ & _ & Hm & Hmodels
        & [[Hl Hrows]|(Hl & _ & -> & Hrows)]).
  - apply consistent_same; [|done].
    rewrite Hmodels, insert_id by done. by rewrite list_insert_id.
  - by eapply consistent_register.
Qed.

Lemma constraints_setitem_inv m k v w w' :
  constraints_setitem m k v w = Ok (tt, w') →
  ∃ mr cs, m = Some mr ∧ models w !! mr = Some cs ∧
           w' = with_models (<[mr := <[k := v]> cs]> (models w)) w.
Proof.
  unfold constraints_setitem. destruct m as [mr|]; [|done].
  intros (cs & w1 & [-> Hcs]%deref_inv & H)%bind_inv.
  injection H as <-. by exists mr, cs.
Qed.

Lemma problem_Constraint_inv m e n kw w c w' :
  problem_Constraint m e n kw w = Ok (c, w') →
  backend_accepts e n kw = true ∧ c = length (rows w) ∧
  w' = with_rows (rows w ++ [built_row n e kw]) w.
Proof.
  unfold problem_Constraint. destruct m; [|done].
  destruct (backend_accepts e n kw); [|done].
  unfold_methods. by intros [= <- <-].
Qed.

Lemma spread_inv explicit kw w u w' :
  spread explicit kw w = Ok (u, w') →
  w' = w ∧ existsb (has_keyword kw) explicit = false.
Proof. rewrite spread_eq. destruct (existsb _ _); naive_solver. Qed.

Lemma get_interface_inv self e w w' :
  get_interface self e w = Ok (tt, w') →
  (models w' = models w ∧ rows w' = rows w) ∨
  ∃ m cs n row,
    models w !! m = Some cs ∧ row_name row = n ∧
    rows w' = rows w ++ [row] ∧
    models w' = <[m := <[n := length (rows w)]> cs]> (models w).
Proof.
  unfold get_interface.
  intros (n & w1 & Hn & H)%bind_inv.
  pose proof (reads_name _ _ _ _ Hn) as ->.
  apply bind_inv in H as (m & w1 & Hm & H).
  pose proof (reads_model _ _ _ _ Hm) as ->.
  apply bind_inv in H as (cs & w1 & Hcs & H).
  pose proof (reads_Model_constraints _ _ _ _ Hcs) as ->.
  destruct (cs !! n) as [existing|] eqn:Hl.
  - left. unfold set_constraint in H.
    rewrite (bind_Ok _ _ _ _ _ Hm), (bind_Ok _ _ _ _ _ Hn) in H.
    apply constraints_setitem_inv in H as (mr & cs' & -> & Hcs' & ->).
    apply deref_inv in Hcs as [_ Hcs]. simplify_eq.
    cbn [with_models models rows].
    rewrite insert_id by done. by rewrite list_insert_id.
  - right.
    rewrite (bind_Ok _ _ _ _ _ Hm), (bind_Ok _ _ _ _ _ Hn) in H.
    apply bind_inv in H as (kw & w1 & Hkw & H).
    apply bind_inv in Hkw as (a & w2 & [-> Ha]%deref_inv & [= <- <-]).
    apply bind_inv in H as (u & w1 & [-> _]%spread_inv & H).
    apply bind_inv in H as (c & w1 & Hc & H).
    apply problem_Constraint_inv in Hc as (_ & -> & ->).
    apply bind_inv in H as (m2 & w1 & Hm2 & H).
    pose proof (reads_model _ _ _ _ Hm2) as ->.
    unfold add_cons_vars in H.
    apply bind_inv in H as (row & w1 & [-> Hrow]%deref_inv & H).
    cbn [with_rows rows] in Hrow. rewrite lookup_snoc in Hrow.
    injection Hrow as <-.
    apply constraints_setitem_inv in H as (mr & cs' & -> & Hcs' & ->).
    exists mr, cs', n, (built_row n e (kwargs a)). by repeat split.
Qed.

Lemma set_expr_inv self v w w' :
  set_expr self v w = Ok (tt, w') →
  ∃ l row,
    rows w !! l = Some row ∧
    w' = with_rows (<[l := {| row_name := row_name row;
                              row_expression := backend_stores v;
                              row_options := row_options row |}]> (rows w)) w.
Proof.
  unfold set_expr. intros (l & w1 & Hc & H)%bind_inv.
  pose proof (reads_constraint _ _ _ _ Hc) as ->.
  unfold Row_set_expression in H.
  apply bind_inv in H as (row & w1 & [-> Hrow]%deref_inv & [= <-]).
  by exists l, row.
Qed.


Lemma perform_consistent w op :
  rebinds op = false → consistent w → consistent (perform w op).
Proof.
  intros Hop Hw. unfold perform.
  destruct (run_op op w) as [[[] w']|] eqn:Hrun; [|done].
  assert (∀ {A} (m : M A), reads_only m →
            discard m w = Ok (tt, w') → consistent w') as Hread.
  { intros A m Hm (x & w1 & H & [= <-])%bind_inv.
    by rewrite (Hm _ _ _ H). }
  destruct op; cbn [run_op rebinds] in *; try done;
    try (eapply Hread; [|exact Hrun]; auto with reads; fail).
  - apply bind_inv in Hrun as (a & w1 & Hnew & [= <-]).
    by eapply consistent_new.
  - eapply Hread; [|exact Hrun]. unfold __attrname__. reads.
  - revert Hrun. unfold set_name.
    intros (a & w1 & [-> Ha]%deref_inv & [= <-])%bind_inv.
    by apply (consistent_same w).
  - apply set_expr_inv in Hrun as (l & row & Hrow & ->).
    by apply (consistent_update_row w _ l row
                {| row_name := row_name row;
                   row_expression := backend_stores value;
                   row_options := row_options row |}).
  - destruct (get_interface_inv _ _ _ _ Hrun)
      as [[Hm Hr]|(m & cs & n & row & Hm & Hrow & Hr & Hms)].
    + by apply (consistent_same w).
    + by eapply consistent_register.
  - eapply Hread; [|exact Hrun]. unfold __repr__. reads.
  - revert Hrun. unfold Entity_set_id.
    intros (x & w1 & [-> Hx]%deref_inv & [= <-])%bind_inv.
    by apply (consistent_same w).
  - revert Hrun. unfold Entity_set_model.
    intros (x & w1 & [-> Hx]%deref_inv & [= <-])%bind_inv.
    by apply (consistent_same w).
Qed.

(** X11.  Consistency of the stores (every row a model holds exists and is
    held under its own name) is kept by every operation of a caller other
    than an assignment to [constraint]: by the constructors, by
    [get_interface], also after [name] has been reassigned, by assignments
    to [expr] and [name], and by renaming or moving an owner. *)
Theorem operations_keep_stores_consistent ops w :
  consistent w →
  forallb (λ op, negb (rebinds op)) ops = true →
  consistent (perform_all ops w).
Proof.
  revert w. induction ops as [|op ops IH]; intros w Hw Hops; [done|].
  cbn in Hops. apply andb_true_iff in Hops as [Hop Hops].
  apply negb_true_iff in Hop.
  apply IH; [|done]. by apply perform_consistent.
Qed.

(** X12.  In consistent stores a constructor call that returns leaves an
    adapter that can be read: its [constraint] is a row that exists and
    carries the adapter's name, and [expr] returns that row's expression. *)
Theorem constructed_adapter_reads c args e kw w a w' :
  consistent w →
  new c args e kw w = Ok (a, w') →
  ∃ n l row,
    name a w' = Ok (n, w') ∧
    constraint a w' = Ok (l, w') ∧
    rows w' !! l = Some row ∧
    row_name row = n ∧
    expr a w' = Ok (row_expression row, w').
Proof.
  intros Hw Hnew.
  pose proof (consistent_new _ _ _ _ _ _ _ Hnew Hw) as Hw'.
  destruct (new_Ok_inv _ _ _ _ _ _ _ Hnew) as (i & m & cs0 & Ht & _).
  destruct (new_bound _ _ _ _ _ _ _ _ _ Ht Hnew)
    as (cs & l & Ha & _ & Hm & Hl & Hc).
  pose proof (proj1 (consistent_lookup w') Hw' _ _ _ _ Hm Hl) as Hrow.
  destruct (rows w' !! l) as [row|] eqn:Hr; [|done].
  injection Hrow as Hrow.
  exists (spec_prefix c +:+ i), l, row.
  split; [by rewrite (name_eq _ _ _ Ha)|]. split; [done|].
  split; [done|]. split; [done|].
  unfold expr. rewrite (bind_Ok _ _ _ _ _ Hc). by run.
Qed.

(** *** What a construction leaves alone, and what it reads back *)

(** X13.  A constructor call that returns adds one adapter object and at
    most one row.  It changes no entity, no row and no adapter object that
    existed, and in the constraints of the models it changes at most the
    entry of the new adapter's name in the new adapter's model. *)
Theorem construction_leaves_the_rest c args e kw w a w' :
  new c args e kw w = Ok (a, w') →
  ∃ n P,
    name a w' = Ok (n, w') ∧
    model a w' = Ok (Some P, w') ∧
    entities w' = entities w ∧
    (∀ l row, rows w !! l = Some row → rows w' !! l = Some row) ∧
    (∀ s ad, adapters w !! s = Some ad → adapters w' !! s = Some ad) ∧
    (∀ m cs, models w !! m = Some cs →
       ∃ cs', models w' !! m = Some cs' ∧
              ∀ k, m ≠ P ∨ k ≠ n → cs' !! k = cs !! k) ∧
    length (adapters w') = S (length (adapters w)) ∧
    length (rows w') ≤ S (length (rows w)).
Proof.
  intros Hnew.
  destruct (new_Ok_inv _ _ _ _ _ _ _ Hnew) as (i & P & cs0 & Ht & _).
  destruct (new_bound _ _ _ _ _ _ _ _ _ Ht Hnew)
    as (cs1 & l1 & Ha & Hr & _).
  destruct (new_post _ _ _ _ _ _ _ _ _ Ht Hnew)
    as (cs & l & _ & Hent & Hads & HP & Hmodels & Hrows).
  assert (P < length (models w)) as HPlt by by eapply lookup_lt_Some.
  exists (spec_prefix c +:+ i), P.
  split; [by rewrite (name_eq _ _ _ Ha)|].
  split; [by apply (model_eq _ _ _ _ _ Ha Hr)|].
  split; [done|]. split; [|split; [|split; [|split]]].
  - intros l' row Hl'.
    destruct Hrows as [[_ ->]|(_ & _ & _ & ->)]; [done|].
    by apply lookup_app_l_Some.
  - intros s ad Hs. rewrite Hads. by apply lookup_app_l_Some.
  - intros m cs' Hm. rewrite Hmodels.
    destruct (decide (m = P)) as [->|Hne].
    + rewrite list_lookup_insert_eq by done. simplify_eq.
      eexists. split; [done|]. intros k [?|Hk]; [done|].
      by rewrite lookup_insert_ne.
    + rewrite list_lookup_insert_ne by done. by exists cs'.
  - rewrite Hads, length_app. cbn. lia.
  - destruct Hrows as [[_ ->]|(_ & _ & _ & ->)]; [lia|].
    rewrite length_app. cbn. lia.
Qed.

(** X14.  After a constructor call that had to create the row, the
    adapter reads back what the constructor was given: [constraint] is the
    new row, [expr] is the expression as the backend stores it, and
    [__repr__] is the name, a colon and the representation of that
    expression. *)
Theorem fresh_construction_reads_back c args e kw w i P cs a w' :
  call_target w c args = Some (i, P) →
  models w !! P = Some cs →
  cs !! (spec_prefix c +:+ i) = None →
  new c args e kw w = Ok (a, w') →
  constraint a w' = Ok (length (rows w), w') ∧
  expr a w' = Ok (backend_stores e, w') ∧
  __repr__ a w'
    = Ok ((spec_prefix c +:+ i) +:+ ": " +:+ Expr_repr (backend_stores e),
          w').
Proof.
  intros Ht HP Hn Hnew.
  destruct (new_bound _ _ _ _ _ _ _ _ _ Ht Hnew)
    as (cs1 & l1 & Ha & Hr & Hm1 & Hl1 & Hc).
  destruct (new_post _ _ _ _ _ _ _ _ _ Ht Hnew)
    as (cs' & l & _ & _ & _ & HP' & Hmodels
        & [[Hl _]|(_ & _ & -> & Hrows)]); simplify_eq.
  rewrite Hmodels in Hm1.
  rewrite list_lookup_insert_eq in Hm1 by by eapply lookup_lt_Some.
  simplify_eq. rewrite lookup_insert_eq in Hl1. simplify_eq.
  assert (rows w' !! length (rows w)
          = Some (built_row (spec_prefix c +:+ i) e kw)) as Hrow.
  { rewrite Hrows. apply lookup_snoc. }
  assert (expr a w' = Ok (backend_stores e, w')) as He.
  { unfold expr. rewrite (bind_Ok _ _ _ _ _ Hc). by run. }
  split; [done|]. split; [done|].
  unfold __repr__. rewrite (bind_Ok _ _ _ _ _ (name_eq _ _ _ Ha)).
  by rewrite (bind_Ok _ _ _ _ _ He).
Qed.

(** X15.  [__repr__] shows the current name and the expression of the row
    the model holds under it at that moment, and raises the mapping's
    missing-key error when the model holds no row under the name. *)
Theorem repr_shows_the_live_row self w m cs :
  model self w = Ok (Some m, w) →
  models w !! m = Some cs →
  ∃ n,
    name self w = Ok (n, w) ∧
    (∀ l row,
       cs !! n = Some l → rows w !! l = Some row →
       __repr__ self w
         = Ok (n +:+ ": " +:+ Expr_repr (row_expression row), w)) ∧
    (cs !! n = None → __repr__ self w = Raise (KeyError n)).
Proof.
  intros (a & i & _ & Ha & Hr)%model_inv Hcs.
  exists (_name a). split; [by apply name_eq|].
  pose proof (constraint_eq _ _ _ _ _ _ Ha Hr Hcs) as Hc.
  unfold __repr__, expr. rewrite (bind_Ok _ _ _ _ _ (name_eq _ _ _ Ha)).
  split.
  - intros l row Hl Hrow. rewrite Hl in Hc.
    erewrite bind_Ok; [reflexivity|].
    rewrite (bind_Ok _ _ _ _ _ Hc). by run.
  - intros Hl. rewrite Hl in Hc.
    apply bind_Raise. by apply bind_Raise.
Qed.

(** *** The constructor's step after a reassigned name *)

Lemma get_interface_absent self w a i m cs e :
  adapters w !! self = Some a →
  resolves w a i (Some m) →
  models w !! m = Some cs →
  cs !! _name a = None →
  repeats_row (kwargs a) = false →
  get_interface self e w
    = if backend_accepts e (_name a) (kwargs a)
      then Ok (tt, {| entities := entities w;
                      models := <[m := <[_name a := length (rows w)]> cs]>
                                  (models w);
                      rows := rows w ++ [built_row (_name a) e (kwargs a)];
                      adapters := adapters w |})
      else Raise BackendError.
Proof.
  intros Ha Hr Hcs Hn Hrow. unfold resolves in Hr. unfold repeats_row in Hrow.
  destruct (backend_accepts e (_name a) (kwargs a)) eqn:Hacc;
    (destruct (binding (cls a)) eqn:Hb;
      [ destruct Hr as (o & x & Ho & Hx & _ & Hm)
      | destruct Hr as (o & x & Ho & Hx & _ & Hm)
      | destruct Hr as [_ Hm] ];
      by run_init).
Qed.

(** X16.  [get_interface] asks the backend for rows with the options the
    adapter keeps in [kwargs].  When [name] has been reassigned to a name
    the model does not hold and [get_interface] is called again (the
    options repeating neither [expression] nor [name]): if the backend
    accepts the row, a second row with the new name, the expression handed
    over and the adapter's options is registered under the new name, every
    other entry of the model stays, and [constraint] and [expr] then read
    the new row; if the backend rejects it, the call raises the backend's
    error. *)
Theorem get_interface_after_rename_registers_again self w a m cs n' e :
  adapters w !! self = Some a →
  model self w = Ok (Some m, w) →
  models w !! m = Some cs →
  cs !! n' = None →
  repeats_row (kwargs a) = false →
  ∃ w1,
    set_name self n' w = Ok (tt, w1) ∧
    (backend_accepts e n' (kwargs a) = true →
     ∃ w2,
       get_interface self e w1 = Ok (tt, w2) ∧
       rows w2 = rows w ++ [ {| row_name := n';
                                row_expression := backend_stores e;
                                row_options := kwargs a |} ] ∧
       models w2 = <[m := <[n' := length (rows w)]> cs]> (models w) ∧
       constraint self w2 = Ok (length (rows w), w2) ∧
       expr self w2 = Ok (backend_stores e, w2)) ∧
    (backend_accepts e n' (kwargs a) = false →
     get_interface self e w1 = Raise BackendError).
Proof.
  intros Ha (a' & i & _ & Ha' & Hr)%model_inv Hcs Hn Hrow. simplify_eq.
  assert (self < length (adapters w)) as Hlt by by eapply lookup_lt_Some.
  assert (m < length (models w)) as Hmlt by by eapply lookup_lt_Some.
  pose (a1 := {| cls := cls a; owner := owner a; _id := _id a;
                 _model := _model a; kwargs := kwargs a; _name := n' |}).
  pose (w1 := with_adapters (<[self := a1]> (adapters w)) w).
  assert (adapters w1 !! self = Some a1) as Ha1
    by by apply list_lookup_insert_eq.
  assert (resolves w1 a1 i (Some m)) as Hr1 by done.
  pose proof (get_interface_absent self w1 a1 i m cs e Ha1 Hr1 Hcs Hn Hrow)
    as Hgi.
  cbn [_name kwargs a1] in Hgi.
  exists w1. split; [by run|]. split.
  - intros Hacc. rewrite Hacc in Hgi. eexists. split; [exact Hgi|].
    cbn [rows models w1 with_adapters]. split; [done|]. split; [done|].
    match goal with |- constraint self ?w2 = _ ∧ _ =>
      assert (constraint self w2 = Ok (length (rows w), w2)) as Hc
    end.
    { erewrite (constraint_eq self _ a1 i m); [|exact Ha1|exact Hr1|].
      - cbn [_name a1]. by rewrite lookup_insert_eq.
      - by apply list_lookup_insert_eq. }
    split; [done|]. unfold expr. rewrite (bind_Ok _ _ _ _ _ Hc).
    unfold_methods. by rewrite lookup_snoc.
  - intros Hacc. by rewrite Hacc in Hgi.
Qed.

End Constraints.

(** ** The theorems at work on the small model *)

Lemma construction_idempotent_witness :
  ∃ a2 w2 cs l,
    new demo_has demo_accepts demo_stores ForwardDeltaGCoupling (OfOwner 0) 9
      [("lb", 1)] demo_world_FU_R1 = Ok (a2, w2) ∧
    a2 ≠ 0 ∧
    models w2 = models demo_world_FU_R1 ∧
    rows w2 = rows demo_world_FU_R1 ∧
    models w2 !! 0 = Some cs ∧
    rows_named (spec_prefix ForwardDeltaGCoupling +:+ "R1") cs = [l] ∧
    constraint 0 w2 = Ok (l, w2) ∧
    constraint a2 w2 = Ok (l, w2).
Proof.
  apply construction_idempotent
    with (args1 := OfOwner 0) (e1 := 7) (kw1 := []) (w := demo_world).
  - reflexivity.
  - vm_compute. reflexivity.
  - reflexivity.
  - reflexivity.
Defined.

Lemma name_is_prefix_plus_identifier_witness :
  name 0 demo_world_FU_FU_x
    = Ok (spec_prefix ForwardDeltaGCoupling +:+ "FU_x", demo_world_FU_FU_x) ∧
  spec_prefix <$> [NegativeDeltaG; ForwardDeltaGCoupling;
                   BackwardDeltaGCoupling; ForwardDirectionCoupling;
                   BackwardDirectionCoupling; SimultaneousUse;
                   DisplacementCoupling; ForbiddenProfile]
    = ["G_"; "FU_"; "BU_"; "UF_"; "UR_"; "SU_"; "DC_"; "FP_"] ∧
  (ForwardDeltaGCoupling = ForwardDeltaGCoupling → "FU_x" = "FU_x" →
   name 0 demo_world_FU_FU_x = Ok ("FU_FU_x", demo_world_FU_FU_x)) ∧
  (ForwardDeltaGCoupling = ForwardDeltaGCoupling → "FU_x" = "R1" →
   name 0 demo_world_FU_FU_x = Ok ("FU_R1", demo_world_FU_FU_x)).
Proof.
  apply name_is_prefix_plus_identifier
    with (has_keyword := demo_has) (backend_accepts := demo_accepts)
         (backend_stores := demo_stores)
         (args := OfOwner 1) (e := 7) (kw := []) (w := demo_world) (P := 0).
  - reflexivity.
  - reflexivity.
  - vm_compute. reflexivity.
Defined.



Lemma duplicate_name_reuses_row_witness :
  ∃ a w',
    new demo_has demo_rejects demo_stores ForwardDeltaGCoupling (OfOwner 0)
      9 [("lb", 1)] demo_world_FU_R1 = Ok (a, w') ∧
    constraint a w' = Ok (0, w') ∧
    rows w' !! 0 = Some {| row_name := "FU_R1"; row_expression := 7;
                           row_options := [] |} ∧
    expr a w' = Ok (7, w').
Proof.
  apply (duplicate_name_reuses_row demo_has demo_rejects demo_stores
           ForwardDeltaGCoupling (OfOwner 0) 9 [("lb", 1)]
           demo_world_FU_R1 "R1" 0 {[ "FU_R1" := 0 ]} 0
           {| row_name := "FU_R1"; row_expression := 7;
              row_options := [] |}).
  - reflexivity.
  - reflexivity.
  - reflexivity.
  - vm_compute. reflexivity.
  - reflexivity.
Defined.

(** The derived name FU_R1 is registered, and the constructor call raises:
    the options repeat [id], which the initialiser passes on itself. *)
Lemma duplicate_name_reuses_row_counterexample :
  call_target demo_world_FU_R1 ForwardDeltaGCoupling (OfOwner 0)
    = Some ("R1", 0) ∧
  models demo_world_FU_R1 !! 0 = Some {[ "FU_R1" := 0 ]} ∧
  ({[ "FU_R1" := 0 ]} : gmap string nat)
    !! (spec_prefix ForwardDeltaGCoupling +:+ "R1") = Some 0 ∧
  new demo_has demo_accepts demo_stores ForwardDeltaGCoupling (OfOwner 0) 9
    [("id", 1)] demo_world_FU_R1 = Raise TypeError.
Proof.
  split; [reflexivity|]. split; [reflexivity|].
  split; [vm_compute; reflexivity|]. vm_compute. reflexivity.
Qed.

Lemma bound_adapter_delegates_to_owner_witness :
  ∃ x ad,
    entities demo_world !! 0 = Some x ∧
    entities demo_world_FU_R1 !! 0 = Some x ∧
    adapters demo_world_FU_R1 !! 0 = Some ad ∧
    cls ad = ForwardDeltaGCoupling ∧ owner ad = Some 0 ∧
    id 0 demo_world_FU_R1 = Ok (ent_id x, demo_world_FU_R1) ∧
    model 0 demo_world_FU_R1 = Ok (ent_model x, demo_world_FU_R1) ∧
    ∀ (w2 : World nat (list (string * nat))) ad2 x2,
      adapters w2 !! 0 = Some ad2 → cls ad2 = ForwardDeltaGCoupling →
      owner ad2 = Some 0 → entities w2 !! 0 = Some x2 →
      id 0 w2 = Ok (ent_id x2, w2) ∧ model 0 w2 = Ok (ent_model x2, w2).
Proof.
  apply (bound_adapter_delegates_to_owner demo_has demo_accepts demo_stores
           ForwardDeltaGCoupling 0 7 [] demo_world 0 demo_world_FU_R1).
  - left. reflexivity.
  - vm_compute. reflexivity.
Defined.

Lemma expression_round_trip_witness :
  expr 0 demo_world_FU_R1 = Ok (7, demo_world_FU_R1) ∧
  ∃ w',
    set_expr demo_stores 0 42 demo_world_FU_R1 = Ok (tt, w') ∧
    expr 0 w' = Ok (42, w') ∧
    adapters w' = adapters demo_world_FU_R1 ∧
    models w' = models demo_world_FU_R1 ∧
    entities w' = entities demo_world_FU_R1 ∧
    rows w' = [ {| row_name := "FU_R1"; row_expression := 42;
                   row_options := [] |} ] ∧
    ∀ other,
      constraint other demo_world_FU_R1 = Ok (0, demo_world_FU_R1) →
      expr other w' = Ok (42, w').
Proof.
  apply (expression_round_trip demo_stores 0
           demo_world_FU_R1 0
           {| row_name := "FU_R1"; row_expression := 7; row_options := [] |}
           42).
  - vm_compute. reflexivity.
  - reflexivity.
  - reflexivity.
Defined.

Lemma name_fixed_after_construction_witness :
  name 0 demo_world_FU_R1
    = Ok (spec_prefix ForwardDeltaGCoupling +:+ "R1", demo_world_FU_R1) ∧
  name 0 (perform_all demo_has demo_accepts demo_stores demo_repr demo_snake
            demo_ops demo_world_FU_R1)
    = Ok (spec_prefix ForwardDeltaGCoupling +:+ "R1",
          perform_all demo_has demo_accepts demo_stores demo_repr demo_snake
            demo_ops demo_world_FU_R1).
Proof.
  apply name_fixed_after_construction
    with (args := OfOwner 0) (e := 7) (kw := []) (w := demo_world) (P := 0).
  - reflexivity.
  - vm_compute. reflexivity.
  - reflexivity.
Defined.

Lemma forbidden_profile_is_problem_level_witness :
  name 0 demo_world_FP = Ok ("FP_" +:+ "profile_1", demo_world_FP) ∧
  ("profile_1" = "profile_1" →
   name 0 demo_world_FP = Ok ("FP_profile_1", demo_world_FP)) ∧
  id 0 demo_world_FP = Ok ("profile_1", demo_world_FP) ∧
  model 0 demo_world_FP = Ok (Some 0, demo_world_FP) ∧
  (∃ ad, adapters demo_world_FP !! 0 = Some ad ∧ owner ad = None) ∧
  (∃ cs l, models demo_world_FP !! 0 = Some cs ∧
           cs !! ("FP_" +:+ "profile_1") = Some l ∧
           constraint 0 demo_world_FP = Ok (l, demo_world_FP)) ∧
  (∀ es, new demo_has demo_accepts demo_stores ForbiddenProfile
           (OfModel (Some 0) "profile_1") 5 [] (with_entities es demo_world)
         = Ok (0, with_entities es demo_world_FP)).
Proof.
  apply (forbidden_profile_is_problem_level demo_has demo_accepts demo_stores
           0 5 [] demo_world "profile_1" 0 demo_world_FP).
  vm_compute. reflexivity.
Defined.

Lemma options_reach_only_a_new_row_witness :
  (∃ a w' ad,
     new demo_has demo_rejects demo_stores ForwardDeltaGCoupling (OfOwner 0) 9
       [("lb", 1)] demo_world_FU_R1 = Ok (a, w') ∧
     rows w' = rows demo_world_FU_R1 ∧
     models w' = models demo_world_FU_R1 ∧
     constraint a w' = Ok (0, w') ∧
     rows w' !! 0 = Some {| row_name := "FU_R1"; row_expression := 7;
                            row_options := [] |} ∧
     adapters w' !! a = Some ad ∧ kwargs ad = [("lb", 1)]) ∧
  (∃ a w',
     new demo_has demo_accepts demo_stores ForwardDeltaGCoupling (OfOwner 0) 9
       [("lb", 1)] demo_world = Ok (a, w') ∧
     ∃ l row,
       constraint a w' = Ok (l, w') ∧
       rows w' !! l = Some row ∧
       row_options row = [("lb", 1)]).
Proof.
  split.
  - apply (proj1 (options_reach_only_a_new_row demo_has demo_rejects demo_stores
                    ForwardDeltaGCoupling (OfOwner 0) 9 [("lb", 1)]
                    demo_world_FU_R1 "R1" 0 {[ "FU_R1" := 0 ]}
                    eq_refl eq_refl));
      reflexivity.
  - eexists _, _. split; [vm_compute; reflexivity|].
    apply (proj2 (options_reach_only_a_new_row demo_has demo_accepts demo_stores
                    ForwardDeltaGCoupling (OfOwner 0) 9 [("lb", 1)]
                    demo_world "R1" 0 ∅ eq_refl eq_refl));
      vm_compute; reflexivity.
Defined.

Lemma constraint_follows_current_name_witness :
  (∃ w',
     set_name 0 "G_R1" demo_world_two = Ok (tt, w') ∧
     name 0 w' = Ok ("G_R1", w') ∧
     models w' = models demo_world_two ∧
     rows w' = rows demo_world_two ∧
     constraint 0 w' = Ok (1, w') ∧
     expr 0 w' = Row_expression 1 w') ∧
  (∃ w',
     set_name 0 "ghost" demo_world_two = Ok (tt, w') ∧
     name 0 w' = Ok ("ghost", w') ∧
     constraint 0 w' = Raise (KeyError "ghost") ∧
     expr 0 w' = Raise (KeyError "ghost") ∧
     ∀ v, set_expr demo_stores 0 v w' = Raise (KeyError "ghost")).
Proof.
  split.
  - destruct (constraint_follows_current_name demo_stores 0 demo_world_two 0
                {[ "FU_R1" := 0; "G_R1" := 1 ]} "G_R1")
      as (w' & Hset & Hname & Hmodels & Hrows & _ & Hkey & _).
    + vm_compute. reflexivity.
    + reflexivity.
    + destruct (Hkey 1) as [Hc He]; [vm_compute; reflexivity|].
      exists w'. by repeat split.
  - destruct (constraint_follows_current_name demo_stores 0 demo_world_two 0
                {[ "FU_R1" := 0; "G_R1" := 1 ]} "ghost")
      as (w' & Hset & Hname & _ & _ & _ & _ & Hmissing).
    + vm_compute. reflexivity.
    + reflexivity.
    + destruct Hmissing as (Hc & He & Hs); [vm_compute; reflexivity|].
      exists w'. by repeat split.
Defined.

(** ** The further properties at work on the small model *)

Lemma prefixed_names_tell_class_and_identifier_witness :
  ForwardDeltaGCoupling = ForwardDeltaGCoupling ∧
  ∃ i, id 0 demo_world_twice = Ok (i, demo_world_twice) ∧
       id 1 demo_world_twice = Ok (i, demo_world_twice).
Proof.
  apply (prefixed_names_tell_class_and_identifier 0 1 demo_world_twice
           {| cls := ForwardDeltaGCoupling; owner := Some 0; _id := "R1";
              _model := Some 0; kwargs := []; _name := "FU_R1" |}
           {| cls := ForwardDeltaGCoupling; owner := Some 0; _id := "R1";
              _model := Some 0; kwargs := [("lb", 1)]; _name := "FU_R1" |}
           "FU_R1");
    reflexivity.
Defined.

Lemma get_interface_on_registered_changes_nothing_witness :
  get_interface demo_has demo_rejects demo_stores 0 99 demo_world_FU_R1
    = Ok (tt, demo_world_FU_R1).
Proof.
  apply (get_interface_on_registered_changes_nothing demo_has demo_rejects
           demo_stores 0 demo_world_FU_R1 0 99).
  vm_compute. reflexivity.
Defined.

Lemma renamed_owner_leaves_name_behind_witness :
  let w2 := perform demo_has demo_accepts demo_stores demo_repr demo_snake
              demo_world_FU_R1 (Rename_entity 0 "R2") in
  ∃ l,
    constraint 0 demo_world_FU_R1 = Ok (l, demo_world_FU_R1) ∧
    id 0 w2 = Ok ("R2", w2) ∧
    make_name 0 w2 = Ok (spec_prefix ForwardDeltaGCoupling +:+ "R2", w2) ∧
    name 0 w2 = Ok (spec_prefix ForwardDeltaGCoupling +:+ "R1", w2) ∧
    constraint 0 w2 = Ok (l, w2).
Proof.
  apply (renamed_owner_leaves_name_behind demo_has demo_accepts demo_stores
           demo_repr demo_snake ForwardDeltaGCoupling 0 7 [] demo_world 0
           demo_world_FU_R1 {| ent_id := "R1"; ent_model := Some 0 |} "R2").
  - discriminate.
  - reflexivity.
  - vm_compute. reflexivity.
Defined.

Lemma moved_owner_redirects_the_lookup_witness :
  (let w2 := perform demo_has demo_accepts demo_stores demo_repr demo_snake
               demo_pair_FU_R1 (Move_entity 0 (Some 1)) in
   model 0 w2 = Ok (Some 1, w2) ∧
   name 0 w2 = Ok ("FU_R1", w2) ∧
   constraint 0 w2 = Ok (0, w2)) ∧
  (let w2 := perform demo_has demo_accepts demo_stores demo_repr demo_snake
               demo_pair_FU_R1 (Move_entity 0 None) in
   model 0 w2 = Ok (None, w2) ∧
   constraint 0 w2 = Raise AttributeError ∧
   ∀ v, set_expr demo_stores 0 v w2 = Raise AttributeError).
Proof.
  destruct (moved_owner_redirects_the_lookup demo_has demo_accepts demo_stores
              demo_repr demo_snake ForwardDeltaGCoupling 0 7 [] demo_pair 0
              demo_pair_FU_R1 {| ent_id := "R1"; ent_model := Some 0 |})
    as [Hmoved Hloose].
  - discriminate.
  - reflexivity.
  - vm_compute. reflexivity.
  - split; [|exact Hloose].
    exact (Hmoved 1 {[ "FU_R1" := 0 ]} eq_refl).
Defined.

Lemma operations_keep_stores_consistent_witness :
  consistent (perform_all demo_has demo_accepts demo_stores demo_repr demo_snake
                demo_ops demo_world_FU_R1).
Proof.
  apply operations_keep_stores_consistent.
  - unfold consistent. apply (bool_decide_unpack _). vm_compute. reflexivity.
  - reflexivity.
Defined.

Lemma constructed_adapter_reads_witness :
  ∃ n l row,
    name 0 demo_world_FU_R1 = Ok (n, demo_world_FU_R1) ∧
    constraint 0 demo_world_FU_R1 = Ok (l, demo_world_FU_R1) ∧
    rows demo_world_FU_R1 !! l = Some row ∧
    row_name row = n ∧
    expr 0 demo_world_FU_R1 = Ok (row_expression row, demo_world_FU_R1).
Proof.
  apply (constructed_adapter_reads demo_has demo_accepts demo_stores
           ForwardDeltaGCoupling (OfOwner 0) 7 [] demo_world 0
           demo_world_FU_R1).
  - unfold consistent. apply (bool_decide_unpack _). vm_compute. reflexivity.
  - vm_compute. reflexivity.
Defined.

Lemma construction_leaves_the_rest_witness :
  ∃ n P,
    name 2 (perform demo_has demo_accepts demo_stores demo_repr demo_snake
              demo_world_two (Call_new SimultaneousUse (OfOwner 0) 5 []))
      = Ok (n, perform demo_has demo_accepts demo_stores demo_repr demo_snake
                 demo_world_two (Call_new SimultaneousUse (OfOwner 0) 5 [])) ∧
    model 2 (perform demo_has demo_accepts demo_stores demo_repr demo_snake
               demo_world_two (Call_new SimultaneousUse (OfOwner 0) 5 []))
      = Ok (Some P,
            perform demo_has demo_accepts demo_stores demo_repr demo_snake
              demo_world_two (Call_new SimultaneousUse (OfOwner 0) 5 [])) ∧
    entities (perform demo_has demo_accepts demo_stores demo_repr demo_snake
                demo_world_two (Call_new SimultaneousUse (OfOwner 0) 5 []))
      = entities demo_world_two ∧
    (∀ l row,
       rows demo_world_two !! l = Some row →
       rows (perform demo_has demo_accepts demo_stores demo_repr demo_snake
               demo_world_two (Call_new SimultaneousUse (OfOwner 0) 5 []))
         !! l = Some row) ∧
    (∀ s ad,
       adapters demo_world_two !! s = Some ad →
       adapters (perform demo_has demo_accepts demo_stores demo_repr demo_snake
                   demo_world_two
                   (Call_new SimultaneousUse (OfOwner 0) 5 []))
         !! s = Some ad) ∧
    (∀ m cs,
       models demo_world_two !! m = Some cs →
       ∃ cs',
         models (perform demo_has demo_accepts demo_stores demo_repr demo_snake
                   demo_world_two
                   (Call_new SimultaneousUse (OfOwner 0) 5 []))
           !! m = Some cs' ∧
         ∀ k, m ≠ P ∨ k ≠ n → cs' !! k = cs !! k) ∧
    length (adapters (perform demo_has demo_accepts demo_stores demo_repr
                        demo_snake demo_world_two
                        (Call_new SimultaneousUse (OfOwner 0) 5 [])))
      = S (length (adapters demo_world_two)) ∧
    length (rows (perform demo_has demo_accepts demo_stores demo_repr demo_snake
                    demo_world_two
                    (Call_new SimultaneousUse (OfOwner 0) 5 [])))
      ≤ S (length (rows demo_world_two)).
Proof.
  apply (construction_leaves_the_rest demo_has demo_accepts demo_stores
           SimultaneousUse (OfOwner 0) 5 [] demo_world_two 2).
  vm_compute. reflexivity.
Defined.

Lemma fresh_construction_reads_back_witness :
  constraint 0 demo_world_FU_R1 = Ok (0, demo_world_FU_R1) ∧
  expr 0 demo_world_FU_R1 = Ok (7, demo_world_FU_R1) ∧
  __repr__ demo_repr 0 demo_world_FU_R1
    = Ok ("FU_R1" +:+ ": " +:+ "expr", demo_world_FU_R1).
Proof.
  apply (fresh_construction_reads_back demo_has demo_accepts demo_stores
           demo_repr ForwardDeltaGCoupling (OfOwner 0) 7 [] demo_world "R1" 0 ∅ 0
           demo_world_FU_R1).
  - reflexivity.
  - reflexivity.
  - reflexivity.
  - vm_compute. reflexivity.
Defined.

Lemma repr_shows_the_live_row_witness :
  ∃ n,
    name 0 demo_world_two = Ok (n, demo_world_two) ∧
    (∀ l row,
       ({[ "FU_R1" := 0; "G_R1" := 1 ]} : gmap string nat) !! n = Some l →
       rows demo_world_two !! l = Some row →
       __repr__ demo_repr 0 demo_world_two
         = Ok (n +:+ ": " +:+ demo_repr (row_expression row),
               demo_world_two)) ∧
    (({[ "FU_R1" := 0; "G_R1" := 1 ]} : gmap string nat) !! n = None →
     __repr__ demo_repr 0 demo_world_two = Raise (KeyError n)).
Proof.
  apply (repr_shows_the_live_row demo_repr 0 demo_world_two 0
           {[ "FU_R1" := 0; "G_R1" := 1 ]}).
  - vm_compute. reflexivity.
  - reflexivity.
Defined.


Lemma new_returns_iff_witness :
  ∃ a w',
    new demo_has demo_accepts demo_stores ForwardDeltaGCoupling (OfOwner 0)
      7 [] demo_world = Ok (a, w').
Proof.
  apply new_returns_iff. exists "R1", 0, ∅.
  split; [reflexivity|]. split; [reflexivity|]. split; [reflexivity|].
  right. split; reflexivity.
Defined.

Lemma construction_raises_in_order_witness :
  new demo_has demo_accepts demo_stores ForwardDeltaGCoupling (OfOwner 0) 9
    [("id", 1)] demo_world_FU_R1 = Raise TypeError ∧
  new demo_has demo_accepts demo_stores ForwardDeltaGCoupling (OfOwner 0) 7
    [("name", 1)] demo_world = Raise TypeError ∧
  new demo_has demo_rejects demo_stores ForwardDeltaGCoupling (OfOwner 0) 7
    [] demo_world = Raise BackendError.
Proof.
  split; [|split].
  - apply (proj1 (construction_raises_in_order demo_has demo_accepts
                    demo_stores ForwardDeltaGCoupling (OfOwner 0) 9
                    [("id", 1)] demo_world_FU_R1 "R1" 0 {[ "FU_R1" := 0 ]}
                    eq_refl eq_refl)).
    reflexivity.
  - apply (proj1 (proj2 (construction_raises_in_order demo_has demo_accepts
                           demo_stores ForwardDeltaGCoupling (OfOwner 0) 7
                           [("name", 1)] demo_world "R1" 0 ∅
                           eq_refl eq_refl)));
      reflexivity.
  - apply (proj2 (proj2 (construction_raises_in_order demo_has demo_rejects
                           demo_stores ForwardDeltaGCoupling (OfOwner 0) 7
                           [] demo_world "R1" 0 ∅ eq_refl eq_refl)));
      reflexivity.
Defined.

Lemma construction_without_model_raises_witness :
  new demo_has demo_accepts demo_stores NegativeDeltaG (OfOwner 0) 7 []
    demo_world_loose = Raise AttributeError ∧
  new demo_has demo_accepts demo_stores NegativeDeltaG (OfOwner 0) 7
    [("id", 1)] demo_world_loose = Raise TypeError ∧
  new demo_has demo_accepts demo_stores ForbiddenProfile
    (OfModel None "profile_1") 7 [] demo_world = Raise AttributeError.
Proof.
  split; [|split].
  - exact (proj1 (construction_without_model_raises demo_has demo_accepts
                    demo_stores NegativeDeltaG 7 [] demo_world_loose)
             0 {| ent_id := "R1"; ent_model := None |}
             ltac:(discriminate) eq_refl eq_refl).
  - exact (proj1 (construction_without_model_raises demo_has demo_accepts
                    demo_stores NegativeDeltaG 7 [("id", 1)]
                    demo_world_loose)
             0 {| ent_id := "R1"; ent_model := None |}
             ltac:(discriminate) eq_refl eq_refl).
  - apply (proj2 (construction_without_model_raises demo_has demo_accepts
                    demo_stores ForbiddenProfile 7 [] demo_world)).
    reflexivity.
Defined.

Lemma equal_names_share_the_row_witness :
  ∃ a2 w2 l,
    new demo_has demo_accepts demo_stores GenericConstraint
      (OfModel (Some 0) "FU_R1") 9 [] demo_world_FU_R1 = Ok (a2, w2) ∧
    models w2 = models demo_world_FU_R1 ∧
    rows w2 = rows demo_world_FU_R1 ∧
    name 0 w2 = name a2 w2 ∧
    constraint 0 w2 = Ok (l, w2) ∧
    constraint a2 w2 = Ok (l, w2).
Proof.
  apply (equal_names_share_the_row demo_has demo_accepts demo_stores
           ForwardDeltaGCoupling GenericConstraint (OfOwner 0)
           (OfModel (Some 0) "FU_R1") 7 9 [] [] demo_world "R1" "FU_R1" 0 0
           demo_world_FU_R1).
  - reflexivity.
  - vm_compute. reflexivity.
  - reflexivity.
  - reflexivity.
  - reflexivity.
Defined.

Lemma get_interface_after_rename_registers_again_witness :
  ∃ w1,
    set_name 0 "ghost" demo_world_FU_R1 = Ok (tt, w1) ∧
    (∃ w2,
       get_interface demo_has demo_accepts demo_stores 0 8 w1 = Ok (tt, w2) ∧
       rows w2 = rows demo_world_FU_R1 ++
                 [ {| row_name := "ghost"; row_expression := 8;
                      row_options := [] |} ] ∧
       models w2 = <[0 := <["ghost" := 1]> {[ "FU_R1" := 0 ]}]>
                     (models demo_world_FU_R1) ∧
       constraint 0 w2 = Ok (1, w2) ∧
       expr 0 w2 = Ok (8, w2)) ∧
    get_interface demo_has demo_rejects demo_stores 0 8 w1
      = Raise BackendError.
Proof.
  destruct (get_interface_after_rename_registers_again demo_has demo_accepts
              demo_stores 0 demo_world_FU_R1
              {| cls := ForwardDeltaGCoupling; owner := Some 0; _id := "R1";
                 _model := Some 0; kwargs := []; _name := "FU_R1" |}
              0 {[ "FU_R1" := 0 ]} "ghost" 8)
    as (w1 & Hset & Haccepted & _);
    [reflexivity|vm_compute; reflexivity|reflexivity|vm_compute; reflexivity
    |reflexivity|].
  destruct (get_interface_after_rename_registers_again demo_has demo_rejects
              demo_stores 0 demo_world_FU_R1
              {| cls := ForwardDeltaGCoupling; owner := Some 0; _id := "R1";
                 _model := Some 0; kwargs := []; _name := "FU_R1" |}
              0 {[ "FU_R1" := 0 ]} "ghost" 8)
    as (w1' & Hset' & _ & Hrejected);
    [reflexivity|vm_compute; reflexivity|reflexivity|vm_compute; reflexivity
    |reflexivity|].
  rewrite Hset in Hset'. injection Hset' as <-.
  exists w1. split; [exact Hset|]. split; [by apply Haccepted|].
  by apply Hrejected.
Defined.
